(** * A Mamdani fuzzy inference engine: shallow embedding of [final.py]

    The engine of [final.py] ([FuzzySet], [FuzzyInferenceSystem]) is
    embedded as executable functions.  Numbers are exact rationals ([Q],
    compared with [==]); Python exceptions are the [Raise] branch of
    [result]; dictionaries whose order is irrelevant are [gmap]s, the
    registry of output variables, whose insertion order [evaluate] relies
    on, is an association list. *)

From Stdlib Require Import QArith Qround Qminmax Lqa Lia List SpecFloat.
From stdpp Require Import gmap strings.
Import ListNotations.

Local Open Scope Q_scope.

(** ** Exceptions *)

Inductive exn : Type :=
| KeyError
| IndexError
| ValueError
| ZeroDivisionError.

Inductive result (A : Type) : Type :=
| Ok (a : A)
| Raise (e : exn).

Arguments Ok {A} a.
Arguments Raise {A} e.

#[global] Instance result_ret : MRet result := fun A a => Ok a.

#[global] Instance result_bind : MBind result := fun A B k m =>
  match m with
  | Ok a => k a
  | Raise e => Raise e
  end.

Definition raises {A : Type} (m : result A) : Prop :=
  exists e, m = Raise e.

(** [d[k]] on a dictionary. *)
Definition getitem {V : Type} (d : gmap string V) (k : string) : result V :=
  match d !! k with
  | Some v => Ok v
  | None => Raise KeyError
  end.

(** [d[k] = v] on a dictionary that keeps insertion order: an existing
    key keeps its position. *)
Fixpoint dict_set {V : Type} (k : string) (v : V) (d : list (string * V))
  : list (string * V) :=
  match d with
  | [] => [(k, v)]
  | (k', v') :: d' =>
      if String.eqb k k' then (k, v) :: d' else (k', v') :: dict_set k v d'
  end.

(** [list(d.values())[0]]. *)
Definition first_value {V : Type} (d : list (string * V)) : result V :=
  match d with
  | [] => Raise IndexError
  | (_, v) :: _ => Ok v
  end.

(** ** Arithmetic *)

Definition Qlt_bool (x y : Q) : bool := negb (Qle_bool y x).

(** [n / d], which raises on a zero divisor ([_trimf_range] and
    [_trapmf_range] below show that no call of the engine gets there). *)
Definition py_div (n d : Q) : result Q :=
  if Qeq_bool d 0 then Raise ZeroDivisionError else Ok (n / d).

(** The [i]-th value of the progression from [start] by [step]. *)
Definition progression (start step : Q) (i : nat) : Q :=
  start + inject_Z (Z.of_nat i) * step.

(** [np.arange(start, stop, step)] in exact arithmetic: the
    [ceil((stop - start) / step)] first values of the progression; NumPy
    refuses a zero step.  This is what NumPy computes where its own
    arithmetic is exact, as on the integer and half-integer ranges of the
    three models ([arange64] below is its float64 computation). *)
Definition arange (start stop step : Q) : result (list Q) :=
  if Qeq_bool step 0 then Raise ZeroDivisionError
  else
    Ok (map (progression start step)
            (seq 0 (Z.to_nat (Qceiling ((stop - start) / step))))).

(** ** class FuzzySet *)

Record FuzzySet : Type := mkFuzzySet {
  name : string;
  universe : list Q;
  membership_functions : gmap string (string * list Q)
}.

Definition FuzzySet_init (nm : string) (universe_range : Q * Q * Q)
  : result FuzzySet :=
  let '(start, stop, step) := universe_range in
  u ← arange start stop step;
  Ok (mkFuzzySet nm u ∅).

Definition add_mf (self : FuzzySet) (nm mf_type : string) (params : list Q)
  : FuzzySet :=
  mkFuzzySet (name self) (universe self)
             (<[nm := (mf_type, params)]> (membership_functions self)).

Definition _trimf (x : Q) (params : list Q) : result Q :=
  match params with
  | [a; b; c] =>
      if Qle_bool x a || Qle_bool c x then Ok 0
      else if Qlt_bool a x && Qle_bool x b then py_div (x - a) (b - a)
      else py_div (c - x) (c - b)
  | _ => Raise ValueError
  end.

Definition _trapmf (x : Q) (params : list Q) : result Q :=
  match params with
  | [a; b; c; d] =>
      if Qle_bool x a || Qle_bool d x then Ok 0
      else if Qle_bool b x && Qle_bool x c then Ok 1
      else if Qlt_bool a x && Qlt_bool x b then py_div (x - a) (b - a)
      else py_div (d - x) (d - c)
  | _ => Raise ValueError
  end.

Definition calculate_membership (self : FuzzySet) (nm : string) (x : Q)
  : result Q :=
  '(mf_type, params) ← getitem (membership_functions self) nm;
  if String.eqb mf_type "trimf" then _trimf x params
  else if String.eqb mf_type "trapmf" then _trapmf x params
  else Ok 0.

(** ** class FuzzyInferenceSystem *)

Definition antecedent : Type := (string * string)%type.
Definition consequent : Type := (string * string)%type.
Definition rule : Type := (list antecedent * consequent)%type.

Record FuzzyInferenceSystem : Type := mkFIS {
  input_sets : gmap string FuzzySet;
  output_sets : list (string * FuzzySet);
  rules : list rule
}.

Definition FuzzyInferenceSystem_init : FuzzyInferenceSystem :=
  mkFIS ∅ [] [].

Definition add_input (self : FuzzyInferenceSystem) (nm : string)
    (universe_range : Q * Q * Q) : result FuzzyInferenceSystem :=
  fs ← FuzzySet_init nm universe_range;
  Ok (mkFIS (<[nm := fs]> (input_sets self)) (output_sets self) (rules self)).

Definition add_output (self : FuzzyInferenceSystem) (nm : string)
    (universe_range : Q * Q * Q) : result FuzzyInferenceSystem :=
  fs ← FuzzySet_init nm universe_range;
  Ok (mkFIS (input_sets self) (dict_set nm fs (output_sets self)) (rules self)).

Definition add_rule (self : FuzzyInferenceSystem)
    (antecedents : list antecedent) (c : consequent) : FuzzyInferenceSystem :=
  mkFIS (input_sets self) (output_sets self)
        (rules self ++ [(antecedents, c)]).

(** [add_input] and [add_output] return the very object they store, and
    the builders call [add_mf] on it: the registry entry is what changes. *)
Definition input_add_mf (self : FuzzyInferenceSystem) (var nm mf_type : string)
    (params : list Q) : FuzzyInferenceSystem :=
  mkFIS (alter (fun fs => add_mf fs nm mf_type params) var (input_sets self))
        (output_sets self) (rules self).

Definition output_add_mf (self : FuzzyInferenceSystem) (var nm mf_type : string)
    (params : list Q) : FuzzyInferenceSystem :=
  mkFIS (input_sets self)
        (map (fun kv : string * FuzzySet =>
                if String.eqb (fst kv) var
                then (fst kv, add_mf (snd kv) nm mf_type params) else kv)
             (output_sets self))
        (rules self).

(** The inner loop over the antecedents of one rule. *)
Fixpoint antecedents_loop (isets : gmap string FuzzySet) (inputs : gmap string Q)
    (strength : Q) (antecedents : list antecedent) : result Q :=
  match antecedents with
  | [] => Ok strength
  | (var_name, mf_name) :: rest =>
      x ← getitem inputs var_name;
      fs ← getitem isets var_name;
      membership ← calculate_membership fs mf_name x;
      antecedents_loop isets inputs (Qmin strength membership) rest
  end.

(** The first loop of [evaluate]: the list [rule_strengths]. *)
Fixpoint rule_strengths (isets : gmap string FuzzySet) (inputs : gmap string Q)
    (rs : list rule) : result (list (Q * consequent)) :=
  match rs with
  | [] => Ok []
  | (antecedents, c) :: rest =>
      strength ← antecedents_loop isets inputs 1 antecedents;
      tl ← rule_strengths isets inputs rest;
      Ok ((strength, c) :: tl)
  end.

(** The loop over [rule_strengths] at one universe point [x]. *)
Fixpoint max_membership_loop (output_set : FuzzySet) (x : Q)
    (max_membership : Q) (strengths : list (Q * consequent)) : result Q :=
  match strengths with
  | [] => Ok max_membership
  | (strength, (output_name, mf_name)) :: rest =>
      m ← calculate_membership output_set mf_name x;
      max_membership_loop output_set x
        (Qmax max_membership (Qmin strength m)) rest
  end.

(** The loop over the universe, on the pair (numerator, denominator). *)
Fixpoint universe_loop (output_set : FuzzySet) (strengths : list (Q * consequent))
    (acc : Q * Q) (points : list Q) : result (Q * Q) :=
  match points with
  | [] => Ok acc
  | x :: rest =>
      max_membership ← max_membership_loop output_set x 0 strengths;
      universe_loop output_set strengths
        (fst acc + x * max_membership, snd acc + max_membership) rest
  end.

Definition evaluate (self : FuzzyInferenceSystem) (inputs : gmap string Q)
  : result Q :=
  strengths ← rule_strengths (input_sets self) inputs (rules self);
  match strengths with
  | [] => Ok 0
  | _ :: _ =>
      output_set ← first_value (output_sets self);
      '(numerator, denominator) ←
        universe_loop output_set strengths (0, 0) (universe output_set);
      if negb (Qeq_bool denominator 0) then Ok (numerator / denominator)
      else Ok 0
  end.

(** The body of the antecedent loop: the membership of one input value. *)
Definition fuzzify (isets : gmap string FuzzySet) (inputs : gmap string Q)
    (a : antecedent) : result Q :=
  x ← getitem inputs (fst a);
  fs ← getitem isets (fst a);
  calculate_membership fs (snd a) x.



(** ** [evaluate] with a log of what it reads

    The same control flow as [evaluate]; every subscript on the input
    mapping, on the registry of input variables and on the registry of
    output variables, and every query of the selected output variable, is
    recorded in the order it happens. *)

Inductive access : Type :=
| ReadInput (var_name : string)
| ReadInputSet (var_name : string)
| ReadOutputSets
| ReadOutputSet (mf_name : string).

Definition logged (A : Type) : Type := (list access * result A)%type.

#[global] Instance logged_ret : MRet logged := fun A a => ([], Ok a).

#[global] Instance logged_bind : MBind logged := fun A B k m =>
  match snd m with
  | Ok a => (fst m ++ fst (k a), snd (k a))
  | Raise e => (fst m, Raise e)
  end.

Definition reading {A : Type} (a : access) (r : result A) : logged A :=
  ([a], r).

Fixpoint antecedents_loop_log (isets : gmap string FuzzySet)
    (inputs : gmap string Q) (strength : Q) (antecedents : list antecedent)
  : logged Q :=
  match antecedents with
  | [] => mret strength
  | (var_name, mf_name) :: rest =>
      x ← reading (ReadInput var_name) (getitem inputs var_name);
      fs ← reading (ReadInputSet var_name) (getitem isets var_name);
      membership ← (([], calculate_membership fs mf_name x) : logged Q);
      antecedents_loop_log isets inputs (Qmin strength membership) rest
  end.

Fixpoint rule_strengths_log (isets : gmap string FuzzySet)
    (inputs : gmap string Q) (rs : list rule)
  : logged (list (Q * consequent)) :=
  match rs with
  | [] => mret []
  | (antecedents, c) :: rest =>
      strength ← antecedents_loop_log isets inputs 1 antecedents;
      tl ← rule_strengths_log isets inputs rest;
      mret ((strength, c) :: tl)
  end.

Fixpoint max_membership_loop_log (output_set : FuzzySet) (x : Q)
    (max_membership : Q) (strengths : list (Q * consequent)) : logged Q :=
  match strengths with
  | [] => mret max_membership
  | (strength, (output_name, mf_name)) :: rest =>
      m ← reading (ReadOutputSet mf_name)
            (calculate_membership output_set mf_name x);
      max_membership_loop_log output_set x
        (Qmax max_membership (Qmin strength m)) rest
  end.

Fixpoint universe_loop_log (output_set : FuzzySet)
    (strengths : list (Q * consequent)) (acc : Q * Q) (points : list Q)
  : logged (Q * Q) :=
  match points with
  | [] => mret acc
  | x :: rest =>
      max_membership ← max_membership_loop_log output_set x 0 strengths;
      universe_loop_log output_set strengths
        (fst acc + x * max_membership, snd acc + max_membership) rest
  end.

Definition evaluate_log (self : FuzzyInferenceSystem) (inputs : gmap string Q)
  : logged Q :=
  strengths ← rule_strengths_log (input_sets self) inputs (rules self);
  match strengths with
  | [] => mret 0
  | _ :: _ =>
      output_set ← reading ReadOutputSets (first_value (output_sets self));
      '(numerator, denominator) ←
        universe_loop_log output_set strengths (0, 0) (universe output_set);
      if negb (Qeq_bool denominator 0) then mret (numerator / denominator)
      else mret 0
  end.

(** ** The centroid in the words of the specification

    [mu_in a] is the membership of the input value of antecedent [a],
    [mu_out l y] the membership of the output point [y] in label [l]. *)

(** Minimum and maximum of the non-empty list [x :: l]. *)
Fixpoint minimum (x : Q) (l : list Q) : Q :=
  match l with
  | [] => x
  | y :: l' => Qmin x (minimum y l')
  end.

Fixpoint maximum (x : Q) (l : list Q) : Q :=
  match l with
  | [] => x
  | y :: l' => Qmax x (maximum y l')
  end.

Definition Qsum (l : list Q) : Q := fold_right Qplus 0 l.

Section Specification.
Variable mu_in : antecedent -> Q.
Variable mu_out : string -> Q -> Q.
Variable rs : list rule.
Variable points : list Q.

(** The minimum over the antecedents; [1] for a rule without any. *)
Definition spec_firing_strength (r : rule) : Q :=
  match map mu_in (fst r) with
  | [] => 1
  | m :: ms => minimum m ms
  end.

Definition spec_clipped (y : Q) (r : rule) : Q :=
  Qmin (spec_firing_strength r) (mu_out (snd (snd r)) y).

(** The maximum over all rules. *)
Definition spec_aggregated (y : Q) : Q :=
  match map (spec_clipped y) rs with
  | [] => 0
  | v :: vs => maximum v vs
  end.

Definition spec_numerator : Q :=
  Qsum (map (fun y => y * spec_aggregated y) points).

Definition spec_denominator : Q :=
  Qsum (map spec_aggregated points).
End Specification.

(** Every lookup of a run succeeds: [mu_in] and [mu_out] are the
    memberships that the antecedents of the rules and, at the points of
    the universe of [out], the labels of their consequents resolve to. *)
Definition resolves (self : FuzzyInferenceSystem) (inputs : gmap string Q)
    (out : FuzzySet) (mu_in : antecedent -> Q) (mu_out : string -> Q -> Q)
  : Prop :=
  Forall (fun r : rule =>
            Forall (fun a => fuzzify (input_sets self) inputs a = Ok (mu_in a))
                   (fst r))
         (rules self) /\
  Forall (fun y =>
            Forall (fun r : rule =>
                      calculate_membership out (snd (snd r)) y =
                      Ok (mu_out (snd (snd r)) y))
                   (rules self))
         (universe out).

(** An entry of [rule_strengths] and the rule it comes from. *)
Definition matches (mu_in : antecedent -> Q) (sc : Q * consequent) (r : rule)
  : Prop :=
  fst sc == spec_firing_strength mu_in r /\ 0 <= fst sc /\ snd sc = snd r.

(** The sum of the products [y * m] of two lists taken side by side. *)
Fixpoint weighted_sum (ys ms : list Q) : Q :=
  match ys, ms with
  | y :: ys', m :: ms' => y * m + weighted_sum ys' ms'
  | _, _ => 0
  end.

(** At the point [y] the loop over [strengths] ends with a value equal
    to [m]. *)
Definition aggregates_to (out : FuzzySet) (strengths : list (Q * consequent))
    (y m : Q) : Prop :=
  exists v, max_membership_loop out y 0 strengths = Ok v /\ v == m.

(** The memberships a run computes, read off the code ([0] stands for a
    lookup that raises). *)
Definition membership_or_zero (m : result Q) : Q :=
  match m with
  | Ok v => v
  | Raise _ => 0
  end.

Definition run_mu_in (self : FuzzyInferenceSystem) (inputs : gmap string Q)
    (a : antecedent) : Q :=
  membership_or_zero (fuzzify (input_sets self) inputs a).

Definition run_mu_out (out : FuzzySet) (l : string) (y : Q) : Q :=
  membership_or_zero (calculate_membership out l y).



(** ** The worked example of the specification *)

Definition example_fis : result FuzzyInferenceSystem :=
  fis ← add_input FuzzyInferenceSystem_init "x" (0, 11, 1);
  let fis := input_add_mf fis "x" "mid" "trapmf" [0; 2; 8; 10] in
  fis ← add_output fis "y" (0, 10, 1);
  let fis := output_add_mf fis "y" "medium" "trimf" [2; 5; 8] in
  Ok (add_rule fis [("x", "mid")] ("y", "medium")).

Definition example_inputs : gmap string Q := {[ "x" := 5 ]}.

Definition example_engine : FuzzyInferenceSystem :=
  match example_fis with
  | Ok fis => fis
  | Raise _ => FuzzyInferenceSystem_init
  end.

Definition example_output : FuzzySet :=
  match first_value (output_sets example_engine) with
  | Ok fs => fs
  | Raise _ => mkFuzzySet "" [] ∅
  end.

(** The memberships of the example: the input lies on the plateau of its
    label, the output label is [Triangular(2, 5, 8)]. *)
Definition example_mu_in (a : antecedent) : Q := 1.

Definition example_mu_out (l : string) (y : Q) : Q :=
  match _trimf y [2; 5; 8] with
  | Ok v => v
  | Raise _ => 0
  end.

(** The example with a second output variable registered after the first,
    and an input off the support of the only rule. *)
Definition example_two_outputs : FuzzyInferenceSystem :=
  match add_output example_engine "z" (0, 4, 1) with
  | Ok fis => fis
  | Raise _ => FuzzyInferenceSystem_init
  end.

Definition example_inputs_off : gmap string Q := {[ "x" := 20 ]}.

(** ** The membership functions as the specification describes them

    The cases read as independent conditions, each fixing the degree
    wherever it holds. *)

Definition trimf_described (a b c x : Q) : Prop :=
  exists v, _trimf x [a; b; c] = Ok v /\
    (x <= a \/ c <= x -> v == 0) /\
    (a < x /\ x <= b -> v == (x - a) / (b - a)) /\
    (b < x /\ x < c -> v == (c - x) / (c - b)) /\
    (x == b -> v == 1).

Definition trapmf_described (a b c d x : Q) : Prop :=
  exists v, _trapmf x [a; b; c; d] = Ok v /\
    (x <= a \/ d <= x -> v == 0) /\
    (b <= x /\ x <= c -> v == 1) /\
    (a < x /\ x < b -> v == (x - a) / (b - a)) /\
    (c < x /\ x < d -> v == (d - x) / (d - c)).

(** ** The three models and the pipeline *)

Definition create_house_fis : result FuzzyInferenceSystem :=
  let fis := FuzzyInferenceSystem_init in
  fis ← add_input fis "market_value" (0, 1000001, 1000);
  let fis := input_add_mf fis "market_value" "low" "trapmf"
               [0; 0; 80000; 100000] in
  let fis := input_add_mf fis "market_value" "medium" "trapmf"
               [50000; 100000; 200000; 250000] in
  let fis := input_add_mf fis "market_value" "high" "trapmf"
               [200000; 300000; 700000; 850000] in
  let fis := input_add_mf fis "market_value" "very_high" "trapmf"
               [650000; 850000; 1000000; 1000000] in
  fis ← add_input fis "location" (0, 11, 1 # 2);
  let fis := input_add_mf fis "location" "bad" "trapmf" [0; 0; 2; 4] in
  let fis := input_add_mf fis "location" "fair" "trapmf"
               [5 # 2; 5; 6; 17 # 2] in
  let fis := input_add_mf fis "location" "excellent" "trapmf"
               [6; 17 # 2; 10; 10] in
  fis ← add_output fis "house_eval" (0, 11, 1);
  let fis := output_add_mf fis "house_eval" "very_low" "trimf" [0; 0; 3] in
  let fis := output_add_mf fis "house_eval" "low" "trimf" [0; 3; 6] in
  let fis := output_add_mf fis "house_eval" "medium" "trimf" [2; 5; 8] in
  let fis := output_add_mf fis "house_eval" "high" "trimf" [4; 7; 10] in
  let fis := output_add_mf fis "house_eval" "very_high" "trimf" [7; 10; 10] in
  let fis := add_rule fis [("market_value", "low")] ("house_eval", "low") in
  let fis := add_rule fis [("location", "bad")] ("house_eval", "low") in
  let fis := add_rule fis [("location", "bad"); ("market_value", "low")]
               ("house_eval", "very_low") in
  let fis := add_rule fis [("location", "bad"); ("market_value", "medium")]
               ("house_eval", "low") in
  let fis := add_rule fis [("location", "bad"); ("market_value", "high")]
               ("house_eval", "medium") in
  let fis := add_rule fis [("location", "bad"); ("market_value", "very_high")]
               ("house_eval", "high") in
  let fis := add_rule fis [("location", "fair"); ("market_value", "low")]
               ("house_eval", "low") in
  let fis := add_rule fis [("location", "fair"); ("market_value", "medium")]
               ("house_eval", "medium") in
  let fis := add_rule fis [("location", "fair"); ("market_value", "high")]
               ("house_eval", "high") in
  let fis := add_rule fis [("location", "fair"); ("market_value", "very_high")]
               ("house_eval", "very_high") in
  let fis := add_rule fis [("location", "excellent"); ("market_value", "low")]
               ("house_eval", "medium") in
  let fis := add_rule fis
               [("location", "excellent"); ("market_value", "medium")]
               ("house_eval", "high") in
  let fis := add_rule fis [("location", "excellent"); ("market_value", "high")]
               ("house_eval", "very_high") in
  let fis := add_rule fis
               [("location", "excellent"); ("market_value", "very_high")]
               ("house_eval", "very_high") in
  Ok fis.

Definition create_application_fis : result FuzzyInferenceSystem :=
  let fis := FuzzyInferenceSystem_init in
  fis ← add_input fis "assets" (0, 1000001, 1000);
  let fis := input_add_mf fis "assets" "low" "trimf" [0; 0; 150000] in
  let fis := input_add_mf fis "assets" "medium" "trapmf"
               [50000; 250000; 450000; 650000] in
  let fis := input_add_mf fis "assets" "high" "trapmf"
               [500000; 700000; 1000000; 1000000] in
  fis ← add_input fis "salary" (0, 100001, 100);
  let fis := input_add_mf fis "salary" "low" "trapmf" [0; 0; 10000; 25000] in
  let fis := input_add_mf fis "salary" "medium" "trimf"
               [15000; 35000; 55000] in
  let fis := input_add_mf fis "salary" "high" "trimf" [40000; 60000; 80000] in
  let fis := input_add_mf fis "salary" "very_high" "trapmf"
               [60000; 80000; 100000; 100000] in
  fis ← add_output fis "eval_app" (0, 11, 1);
  let fis := output_add_mf fis "eval_app" "low" "trapmf" [0; 0; 2; 4] in
  let fis := output_add_mf fis "eval_app" "medium" "trimf" [2; 5; 8] in
  let fis := output_add_mf fis "eval_app" "high" "trapmf" [6; 8; 10; 10] in
  let fis := add_rule fis [("assets", "low"); ("salary", "low")]
               ("eval_app", "low") in
  let fis := add_rule fis [("assets", "low"); ("salary", "medium")]
               ("eval_app", "low") in
  let fis := add_rule fis [("assets", "low"); ("salary", "high")]
               ("eval_app", "medium") in
  let fis := add_rule fis [("assets", "low"); ("salary", "very_high")]
               ("eval_app", "high") in
  let fis := add_rule fis [("assets", "medium"); ("salary", "low")]
               ("eval_app", "low") in
  let fis := add_rule fis [("assets", "medium"); ("salary", "medium")]
               ("eval_app", "medium") in
  let fis := add_rule fis [("assets", "medium"); ("salary", "high")]
               ("eval_app", "high") in
  let fis := add_rule fis [("assets", "medium"); ("salary", "very_high")]
               ("eval_app", "high") in
  let fis := add_rule fis [("assets", "high"); ("salary", "low")]
               ("eval_app", "medium") in
  let fis := add_rule fis [("assets", "high"); ("salary", "medium")]
               ("eval_app", "medium") in
  let fis := add_rule fis [("assets", "high"); ("salary", "high")]
               ("eval_app", "high") in
  let fis := add_rule fis [("assets", "high"); ("salary", "very_high")]
               ("eval_app", "high") in
  Ok fis.

Definition create_loan_fis : result FuzzyInferenceSystem :=
  let fis := FuzzyInferenceSystem_init in
  fis ← add_input fis "house_eval" (0, 11, 1);
  let fis := input_add_mf fis "house_eval" "very_low" "trimf" [0; 0; 3] in
  let fis := input_add_mf fis "house_eval" "low" "trimf" [0; 3; 6] in
  let fis := input_add_mf fis "house_eval" "medium" "trimf" [2; 5; 8] in
  let fis := input_add_mf fis "house_eval" "high" "trimf" [4; 7; 10] in
  let fis := input_add_mf fis "house_eval" "very_high" "trimf" [7; 10; 10] in
  fis ← add_input fis "eval_app" (0, 11, 1);
  let fis := input_add_mf fis "eval_app" "low" "trapmf" [0; 0; 2; 4] in
  let fis := input_add_mf fis "eval_app" "medium" "trimf" [2; 5; 8] in
  let fis := input_add_mf fis "eval_app" "high" "trapmf" [6; 8; 10; 10] in
  fis ← add_input fis "interest" (0, 10, 1 # 2);
  let fis := input_add_mf fis "interest" "low" "trapmf" [0; 0; 2; 5] in
  let fis := input_add_mf fis "interest" "medium" "trapmf" [2; 4; 6; 8] in
  let fis := input_add_mf fis "interest" "high" "trapmf"
               [6; 17 # 2; 10; 10] in
  fis ← add_input fis "salary" (0, 100001, 100);
  let fis := input_add_mf fis "salary" "low" "trapmf" [0; 0; 10000; 25000] in
  let fis := input_add_mf fis "salary" "medium" "trimf"
               [15000; 35000; 55000] in
  let fis := input_add_mf fis "salary" "high" "trimf" [40000; 60000; 80000] in
  let fis := input_add_mf fis "salary" "very_high" "trapmf"
               [60000; 80000; 100000; 100000] in
  fis ← add_output fis "loan" (0, 500001, 1000);
  let fis := output_add_mf fis "loan" "very_low" "trimf" [0; 0; 125000] in
  let fis := output_add_mf fis "loan" "low" "trimf" [0; 125000; 250000] in
  let fis := output_add_mf fis "loan" "medium" "trimf"
               [125000; 250000; 375000] in
  let fis := output_add_mf fis "loan" "high" "trimf"
               [250000; 375000; 500000] in
  let fis := output_add_mf fis "loan" "very_high" "trimf"
               [375000; 500000; 500000] in
  let fis := add_rule fis [("salary", "low"); ("interest", "medium")]
               ("loan", "very_low") in
  let fis := add_rule fis [("salary", "low"); ("interest", "high")]
               ("loan", "very_low") in
  let fis := add_rule fis [("salary", "medium"); ("interest", "high")]
               ("loan", "low") in
  let fis := add_rule fis [("eval_app", "low")] ("loan", "very_low") in
  let fis := add_rule fis [("house_eval", "very_low")] ("loan", "very_low") in
  let fis := add_rule fis [("eval_app", "medium"); ("house_eval", "very_low")]
               ("loan", "low") in
  let fis := add_rule fis [("eval_app", "medium"); ("house_eval", "low")]
               ("loan", "low") in
  let fis := add_rule fis [("eval_app", "medium"); ("house_eval", "medium")]
               ("loan", "medium") in
  let fis := add_rule fis [("eval_app", "medium"); ("house_eval", "high")]
               ("loan", "high") in
  let fis := add_rule fis [("eval_app", "medium"); ("house_eval", "very_high")]
               ("loan", "high") in
  let fis := add_rule fis [("eval_app", "high"); ("house_eval", "very_low")]
               ("loan", "low") in
  let fis := add_rule fis [("eval_app", "high"); ("house_eval", "low")]
               ("loan", "medium") in
  let fis := add_rule fis [("eval_app", "high"); ("house_eval", "medium")]
               ("loan", "high") in
  let fis := add_rule fis [("eval_app", "high"); ("house_eval", "high")]
               ("loan", "high") in
  let fis := add_rule fis [("eval_app", "high"); ("house_eval", "very_high")]
               ("loan", "very_high") in
  Ok fis.

(** The dictionary returned by [evaluate_loan]. *)
Record loan_report : Type := mkLoanReport {
  house_evaluation : Q;
  application_evaluation : Q;
  loan_amount : Q
}.

Definition evaluate_loan (market_value location_value assets_value
    salary_value interest_value : Q) : result loan_report :=
  house_fis ← create_house_fis;
  house_eval ← evaluate house_fis
    {[ "market_value" := market_value; "location" := location_value ]};
  app_fis ← create_application_fis;
  app_eval ← evaluate app_fis
    {[ "assets" := assets_value; "salary" := salary_value ]};
  loan_fis ← create_loan_fis;
  loan_amount ← evaluate loan_fis
    {[ "house_eval" := house_eval; "eval_app" := app_eval;
       "interest" := interest_value; "salary" := salary_value ]};
  Ok (mkLoanReport house_eval app_eval loan_amount).

(** ** A static check of an engine

    What [evaluate] looks up, decided before any input is seen: the
    parameter list of a membership function has the length its type
    unpacks, the label of a set is registered with such a function, and
    every rule names registered input variables and labels and a label of
    the first output variable. *)

Definition mf_unpacks (mf : string * list Q) : bool :=
  if String.eqb (fst mf) "trimf" then Nat.eqb (length (snd mf)) 3
  else if String.eqb (fst mf) "trapmf" then Nat.eqb (length (snd mf)) 4
  else true.

Definition label_ok (fs : FuzzySet) (l : string) : bool :=
  match membership_functions fs !! l with
  | Some mf => mf_unpacks mf
  | None => false
  end.

Definition antecedent_ok (isets : gmap string FuzzySet) (a : antecedent)
  : bool :=
  match isets !! fst a with
  | Some fs => label_ok fs (snd a)
  | None => false
  end.

Definition validated (self : FuzzyInferenceSystem) : bool :=
  match output_sets self with
  | [] => match rules self with [] => true | _ :: _ => false end
  | (_, out) :: _ =>
      forallb (fun r : rule =>
                 forallb (antecedent_ok (input_sets self)) (fst r) &&
                 label_ok out (snd (snd r)))
              (rules self)
  end.

(** The input mapping has a value for every variable the rules name. *)
Definition covers (inputs : gmap string Q) (self : FuzzyInferenceSystem)
  : bool :=
  forallb (fun r : rule =>
             forallb (fun a : antecedent =>
                        match inputs !! fst a with
                        | Some _ => true
                        | None => false
                        end) (fst r))
          (rules self).

(** All points of a universe lie between [lo] and [hi]. *)
Definition within (lo hi : Q) (points : list Q) : bool :=
  forallb (fun y => Qle_bool lo y && Qle_bool y hi) points.

(** A set that keeps the membership functions of [fs] only. *)
Definition forget_universe (fs : FuzzySet) : FuzzySet :=
  mkFuzzySet "" [] (membership_functions fs).

(** The keys of an insertion-ordered dictionary. *)
Definition keys {V : Type} (d : list (string * V)) : list string :=
  map fst d.

(** The greatest element of a list, [0] for the empty list. *)
Definition greatest (l : list Q) : Q :=
  match l with
  | [] => 0
  | v :: vs => maximum v vs
  end.

(** The engines that the three builders return. *)
Definition built (b : result FuzzyInferenceSystem) : FuzzyInferenceSystem :=
  match b with
  | Ok fis => fis
  | Raise _ => FuzzyInferenceSystem_init
  end.

Definition house_engine : FuzzyInferenceSystem := built create_house_fis.
Definition application_engine : FuzzyInferenceSystem :=
  built create_application_fis.
Definition loan_engine : FuzzyInferenceSystem := built create_loan_fis.

(** ** NumPy's [np.arange] on float64

    Binary64 numbers are [spec_float]s with 53 bits of precision.  For
    float arguments NumPy takes [ceil((stop - start) / step)] as the
    length, stores [start] and [start + step], and fills the rest with
    [start + i * delta], where [delta] is the difference of the first two
    entries; every operation rounds to nearest.  (For integer arguments
    it computes the same progression in int64, exactly.) *)

Definition f64 : Type := spec_float.

Definition f64_add : f64 -> f64 -> f64 := SFadd 53 1024.
Definition f64_sub : f64 -> f64 -> f64 := SFsub 53 1024.
Definition f64_mul : f64 -> f64 -> f64 := SFmul 53 1024.
Definition f64_div : f64 -> f64 -> f64 := SFdiv 53 1024.

Definition f64_of_Z (z : Z) : f64 :=
  match z with
  | Z0 => S754_zero false
  | Zpos m => binary_round 53 1024 false m 0
  | Zneg m => binary_round 53 1024 true m 0
  end.

(** The float64 nearest to a fraction: what Python reads a literal such
    as [1.3] or [0.1] as. *)
Definition f64_of_Q (q : Q) : f64 :=
  f64_div (f64_of_Z (Qnum q)) (f64_of_Z (Zpos (Qden q))).

Definition f64_ceil (f : f64) : Z :=
  match f with
  | S754_finite s m e =>
      let n := if s then Zneg m else Zpos m in
      if (0 <=? e)%Z then (n * 2 ^ e)%Z else (- ((- n) / 2 ^ (- e)))%Z
  | _ => 0%Z
  end.

Definition arange64 (start stop step : f64) : list f64 :=
  let length := Z.to_nat (f64_ceil (f64_div (f64_sub stop start) step)) in
  let second := f64_add start step in
  let delta := f64_sub second start in
  map (fun i : nat =>
         match i with
         | O => start
         | S O => second
         | _ => f64_add start (f64_mul (f64_of_Z (Z.of_nat i)) delta)
         end)
      (seq 0 length).


(** The ranges that the three models and the worked example use. *)
Definition shipped_ranges : list (Q * Q * Q) :=
  [(0, 1000001, 1000); (0, 11, 1 # 2); (0, 11, 1); (0, 100001, 100);
   (0, 10, 1 # 2); (0, 500001, 1000); (0, 10, 1)].

(** On a range the float64 computation gives the points of [arange]. *)
Definition exact_on (r : Q * Q * Q) : Prop :=
  let '(start, stop, step) := r in
  match arange start stop step with
  | Ok u =>
      arange64 (f64_of_Q start) (f64_of_Q stop) (f64_of_Q step) =
      map f64_of_Q u
  | Raise _ => False
  end.

(** * Properties *)

(** ** Comparisons and division *)

Lemma Qle_bool_reflect (x y : Q) : Bool.reflect (x <= y) (Qle_bool x y).
Proof.
  destruct (Qle_bool x y) eqn:E; constructor.
  - now apply Qle_bool_iff.
  - intros H. apply Qle_bool_iff in H. congruence.
Qed.

Lemma Qlt_bool_reflect (x y : Q) : Bool.reflect (x < y) (Qlt_bool x y).
Proof.
  unfold Qlt_bool. destruct (Qle_bool_reflect y x); constructor; lra.
Qed.

Lemma Qeq_bool_reflect (x y : Q) : Bool.reflect (x == y) (Qeq_bool x y).
Proof.
  destruct (Qeq_bool x y) eqn:E; constructor.
  - now apply Qeq_bool_iff.
  - now apply Qeq_bool_neq.
Qed.

(** Case analysis on every comparison of the goal. *)
Ltac qcases :=
  repeat match goal with
    | |- context [Qle_bool ?x ?y] => destruct (Qle_bool_reflect x y)
    | |- context [Qlt_bool ?x ?y] => destruct (Qlt_bool_reflect x y)
    | |- context [Qeq_bool ?x ?y] => destruct (Qeq_bool_reflect x y)
    end; cbn [orb andb negb].

Lemma py_div_ok (n d : Q) : ~ d == 0 -> py_div n d = Ok (n / d).
Proof. intros H. unfold py_div. qcases; [contradiction | reflexivity]. Qed.

Lemma ratio_unit (n d : Q) : 0 <= n -> n <= d -> 0 < d -> 0 <= n / d <= 1.
Proof.
  intros Hn Hnd Hd. split.
  - apply Qle_shift_div_l; lra.
  - apply Qle_shift_div_r; lra.
Qed.

Lemma ratio_one (d : Q) : ~ d == 0 -> d / d == 1.
Proof. intros H. field. exact H. Qed.

(** ** Membership functions *)

(** [_trimf] in closed form: the three cases in the order the code takes
    them.  No parameter ordering is needed, and no division by zero is
    ever reached. *)
Lemma _trimf_cases (x a b c : Q) :
  (x <= a \/ c <= x -> _trimf x [a; b; c] = Ok 0) /\
  (a < x -> x < c -> x <= b -> _trimf x [a; b; c] = Ok ((x - a) / (b - a))) /\
  (a < x -> x < c -> b < x -> _trimf x [a; b; c] = Ok ((c - x) / (c - b))).
Proof.
  unfold _trimf. repeat split.
  - intros H. qcases; try reflexivity; lra.
  - intros H1 H2 H3. qcases; try lra. apply py_div_ok. lra.
  - intros H1 H2 H3. qcases; try lra; apply py_div_ok; lra.
Qed.

Lemma _trapmf_cases (x a b c d : Q) :
  (x <= a \/ d <= x -> _trapmf x [a; b; c; d] = Ok 0) /\
  (a < x -> x < d -> b <= x -> x <= c -> _trapmf x [a; b; c; d] = Ok 1) /\
  (a < x -> x < d -> x < b ->
   _trapmf x [a; b; c; d] = Ok ((x - a) / (b - a))) /\
  (a < x -> x < d -> b <= x -> c < x ->
   _trapmf x [a; b; c; d] = Ok ((d - x) / (d - c))).
Proof.
  unfold _trapmf. repeat split.
  - intros H. qcases; try reflexivity; lra.
  - intros. qcases; try reflexivity; lra.
  - intros. qcases; try lra; apply py_div_ok; lra.
  - intros. qcases; try lra; apply py_div_ok; lra.
Qed.

Lemma _trimf_range (x a b c : Q) :
  exists v, _trimf x [a; b; c] = Ok v /\ 0 <= v <= 1.
Proof.
  destruct (_trimf_cases x a b c) as (H0 & Hup & Hdown).
  destruct (Qlt_le_dec a x) as [Ha|Ha]; [|exists 0; split; [auto | lra]].
  destruct (Qlt_le_dec x c) as [Hc|Hc]; [|exists 0; split; [auto | lra]].
  destruct (Qlt_le_dec b x) as [Hb|Hb].
  - eexists; split; [apply Hdown; assumption | apply ratio_unit; lra].
  - eexists; split; [apply Hup; assumption | apply ratio_unit; lra].
Qed.

Lemma _trapmf_range (x a b c d : Q) :
  exists v, _trapmf x [a; b; c; d] = Ok v /\ 0 <= v <= 1.
Proof.
  destruct (_trapmf_cases x a b c d) as (H0 & H1 & Hup & Hdown).
  destruct (Qlt_le_dec a x) as [Ha|Ha]; [|exists 0; split; [auto | lra]].
  destruct (Qlt_le_dec x d) as [Hd|Hd]; [|exists 0; split; [auto | lra]].
  destruct (Qlt_le_dec x b) as [Hb|Hb].
  - eexists; split; [apply Hup; assumption | apply ratio_unit; lra].
  - destruct (Qlt_le_dec c x) as [Hc|Hc].
    + eexists; split; [apply Hdown; assumption | apply ratio_unit; lra].
    + exists 1; split; [auto | lra].
Qed.

(** C2 (as stated, refuted).  On the shoulder [Triangular(7, 10, 10)] of
    the house model the point [x = b = 10] falls under the zero case
    [x >= c]: the degree is [0], neither the rising value nor [1]. *)
Lemma trimf_described_fails_on_shoulder :
  _trimf 10 [7; 10; 10] = Ok 0 /\ ~ trimf_described 7 10 10 10.
Proof.
  split; [reflexivity|].
  intros (v & Hv & _ & _ & _ & Hpeak).
  vm_compute in Hv. injection Hv as <-.
  specialize (Hpeak (Qeq_refl _)). lra.
Qed.

(** C2 (amended).  For every [Triangular(a, b, c)] and every [x] the
    degree is [0] when [x <= a] or [x >= c]; for [a < x < c] it is
    [(x - a) / (b - a)] when [x <= b] and [(c - x) / (c - b)] when
    [b < x]; at [x = b] the degree is exactly [1] when [a < b < c]. *)
Theorem trimf_piecewise (a b c x : Q) :
  exists v, _trimf x [a; b; c] = Ok v /\
    (x <= a \/ c <= x -> v == 0) /\
    (a < x -> x < c -> x <= b -> v == (x - a) / (b - a)) /\
    (a < x -> x < c -> b < x -> v == (c - x) / (c - b)) /\
    (a < b -> b < c -> x == b -> v == 1).
Proof.
  destruct (_trimf_cases x a b c) as (H0 & Hup & Hdown).
  destruct (_trimf_range x a b c) as (v & Hv & _).
  exists v. split; [exact Hv|]. repeat split.
  - intros H. rewrite (H0 H) in Hv. injection Hv as <-. reflexivity.
  - intros H1 H2 H3. rewrite (Hup H1 H2 H3) in Hv. injection Hv as <-.
    reflexivity.
  - intros H1 H2 H3. rewrite (Hdown H1 H2 H3) in Hv. injection Hv as <-.
    reflexivity.
  - intros Hab Hbc Hx.
    rewrite Hup in Hv by lra. injection Hv as <-.
    rewrite Hx. apply ratio_one. lra.
Qed.

Lemma trimf_piecewise_witness :
  exists v, _trimf 5 [2; 5; 8] = Ok v /\ v == 1.
Proof.
  destruct (trimf_piecewise 2 5 8 5) as (v & Hv & _ & _ & _ & Hpeak).
  exists v. split; [exact Hv|]. apply Hpeak; [lra | lra | reflexivity].
Defined.

(** C3 (as stated, refuted).  On the shoulder
    [Trapezoidal(0, 0, 80000, 100000)] of the house model the point
    [x = a = b = 0] lies in [[b, c]] and falls under the zero case
    [x <= a]: the degree is [0], not [1]. *)
Lemma trapmf_described_fails_on_shoulder :
  _trapmf 0 [0; 0; 80000; 100000] = Ok 0 /\
  ~ trapmf_described 0 0 80000 100000 0.
Proof.
  split; [reflexivity|].
  intros (v & Hv & _ & Hplateau & _).
  vm_compute in Hv. injection Hv as <-.
  assert (H : 0 == 1) by (apply Hplateau; lra). lra.
Qed.

(** C3 (amended).  For every [Trapezoidal(a, b, c, d)] and every [x] the
    degree is [0] when [x <= a] or [x >= d]; for [a < x < d] it is [1]
    when [b <= x <= c], [(x - a) / (b - a)] when [x < b], and
    [(d - x) / (d - c)] when [b <= x] and [c < x]. *)
Theorem trapmf_piecewise (a b c d x : Q) :
  exists v, _trapmf x [a; b; c; d] = Ok v /\
    (x <= a \/ d <= x -> v == 0) /\
    (a < x -> x < d -> b <= x -> x <= c -> v == 1) /\
    (a < x -> x < d -> x < b -> v == (x - a) / (b - a)) /\
    (a < x -> x < d -> b <= x -> c < x -> v == (d - x) / (d - c)).
Proof.
  destruct (_trapmf_cases x a b c d) as (H0 & H1 & Hup & Hdown).
  destruct (_trapmf_range x a b c d) as (v & Hv & _).
  exists v. split; [exact Hv|]. repeat split; intros.
  - rewrite H0 in Hv by assumption. injection Hv as <-. reflexivity.
  - rewrite H1 in Hv by assumption. injection Hv as <-. reflexivity.
  - rewrite Hup in Hv by assumption. injection Hv as <-. reflexivity.
  - rewrite Hdown in Hv by assumption. injection Hv as <-. reflexivity.
Qed.

Lemma trapmf_piecewise_witness :
  exists v, _trapmf 5 [2; 4; 6; 8] = Ok v /\ v == 1.
Proof.
  destruct (trapmf_piecewise 2 4 6 8 5) as (v & Hv & _ & Hplateau & _).
  exists v. split; [exact Hv|]. apply Hplateau; lra.
Defined.

(** C8.  With ordered parameters neither membership function reaches a
    division by zero (the divisor of each quotient branch is non-zero
    where the branch is taken, so the call returns instead of raising
    [ZeroDivisionError]) and the degree lies in [[0, 1]]. *)
Theorem membership_safe_and_bounded (x a b c d : Q) :
  (a <= b -> b <= c ->
   (exists v, _trimf x [a; b; c] = Ok v /\ 0 <= v <= 1) /\
   (a < x -> x < c -> x <= b -> ~ b - a == 0) /\
   (a < x -> x < c -> b < x -> ~ c - b == 0)) /\
  (a <= b -> b <= c -> c <= d ->
   (exists v, _trapmf x [a; b; c; d] = Ok v /\ 0 <= v <= 1) /\
   (a < x -> x < d -> x < b -> ~ b - a == 0) /\
   (a < x -> x < d -> b <= x -> c < x -> ~ d - c == 0)).
Proof.
  split.
  - intros _ _. split; [apply _trimf_range | split; intros; lra].
  - intros _ _ _. split; [apply _trapmf_range | split; intros; lra].
Qed.

Lemma membership_safe_and_bounded_witness :
  (exists v, _trimf 3 [0; 0; 3] = Ok v /\ 0 <= v <= 1) /\
  (exists v, _trapmf 1 [0; 0; 2; 4] = Ok v /\ 0 <= v <= 1).
Proof.
  destruct (membership_safe_and_bounded 3 0 0 3 3) as [Htri _].
  destruct (membership_safe_and_bounded 1 0 0 2 4) as [_ Htrap].
  split.
  - apply Htri; lra.
  - apply Htrap; lra.
Defined.

(** ** The universe of discourse *)

Lemma arange_positive_step (start stop step : Q) :
  0 < step ->
  arange start stop step =
  Ok (map (progression start step)
          (seq 0 (Z.to_nat (Qceiling ((stop - start) / step))))).
Proof.
  intros Hs. unfold arange. qcases; [lra | reflexivity].
Qed.

Lemma quotient_scale (n d : Q) : 0 < d -> n / d * d == n.
Proof. intros H. field. lra. Qed.





Section Tabulate.
Context {A : Type} (f : nat -> A).



End Tabulate.





(** On the ranges in use the float64 computation is exact. *)
Lemma arange64_exact_on_shipped_ranges : Forall exact_on shipped_ranges.
Proof. repeat constructor; vm_compute; reflexivity. Qed.




(** ** The log of [evaluate] *)

Lemma antecedents_loop_log_erase isets inputs strength antecedents :
  snd (antecedents_loop_log isets inputs strength antecedents) =
  antecedents_loop isets inputs strength antecedents.
Proof.
  revert strength.
  induction antecedents as [|[var_name mf_name] rest IH]; intros strength;
    [reflexivity|].
  cbn [antecedents_loop antecedents_loop_log].
  unfold mbind, logged_bind, result_bind, reading. cbn [fst snd].
  destruct (getitem inputs var_name) as [x|]; [|reflexivity].
  cbn [fst snd]. destruct (getitem isets var_name) as [fs|]; [|reflexivity].
  cbn [fst snd].
  destruct (calculate_membership fs mf_name x) as [m|]; [|reflexivity].
  cbn [fst snd]. apply IH.
Qed.

Lemma rule_strengths_log_erase isets inputs rs :
  snd (rule_strengths_log isets inputs rs) = rule_strengths isets inputs rs.
Proof.
  induction rs as [|[antecedents c] rest IH]; [reflexivity|].
  cbn [rule_strengths rule_strengths_log].
  unfold mbind, logged_bind, result_bind.
  rewrite antecedents_loop_log_erase.
  destruct (antecedents_loop isets inputs 1 antecedents); [|reflexivity].
  cbn [fst snd]. rewrite IH.
  destruct (rule_strengths isets inputs rest); reflexivity.
Qed.

Lemma max_membership_loop_log_erase output_set x acc strengths :
  snd (max_membership_loop_log output_set x acc strengths) =
  max_membership_loop output_set x acc strengths.
Proof.
  revert acc.
  induction strengths as [|[strength [output_name mf_name]] rest IH];
    intros acc; [reflexivity|].
  cbn [max_membership_loop max_membership_loop_log].
  unfold mbind, logged_bind, result_bind, reading. cbn [fst snd].
  destruct (calculate_membership output_set mf_name x); [|reflexivity].
  cbn [fst snd]. apply IH.
Qed.

Lemma universe_loop_log_erase output_set strengths acc points :
  snd (universe_loop_log output_set strengths acc points) =
  universe_loop output_set strengths acc points.
Proof.
  revert acc. induction points as [|x rest IH]; intros acc; [reflexivity|].
  cbn [universe_loop universe_loop_log].
  unfold mbind, logged_bind, result_bind.
  rewrite max_membership_loop_log_erase.
  destruct (max_membership_loop output_set x 0 strengths); [|reflexivity].
  cbn [fst snd]. apply IH.
Qed.

(** Forgetting the log gives [evaluate]. *)
Lemma evaluate_log_erase self inputs :
  snd (evaluate_log self inputs) = evaluate self inputs.
Proof.
  unfold evaluate, evaluate_log.
  unfold mbind at 1 3. unfold logged_bind at 1. unfold result_bind at 1.
  rewrite rule_strengths_log_erase.
  destruct (rule_strengths (input_sets self) inputs (rules self))
    as [[|s strengths]|]; [reflexivity| |reflexivity].
  cbn [fst snd].
  unfold mbind, logged_bind, result_bind, reading. cbn [fst snd].
  destruct (first_value (output_sets self)) as [output_set|]; [|reflexivity].
  cbn [fst snd]. rewrite universe_loop_log_erase.
  destruct (universe_loop output_set (s :: strengths) (0, 0)
              (universe output_set)) as [[numerator denominator]|];
    [|reflexivity].
  cbn [fst snd]. destruct (negb (Qeq_bool denominator 0)); reflexivity.
Qed.

(** C7.  Without rules [evaluate] returns [0], whatever the input
    mapping and the registries hold, and its log is empty: no input value
    is read and no input or output variable is accessed. *)
Theorem evaluate_no_rules self inputs :
  rules self = [] ->
  evaluate self inputs = Ok 0 /\ evaluate_log self inputs = ([], Ok 0).
Proof.
  intros H. unfold evaluate, evaluate_log. rewrite H. split; reflexivity.
Qed.

Lemma evaluate_no_rules_witness :
  evaluate FuzzyInferenceSystem_init {[ "anything" := 7 ]} = Ok 0 /\
  evaluate_log FuzzyInferenceSystem_init ∅ = ([], Ok 0).
Proof.
  split.
  - apply (evaluate_no_rules FuzzyInferenceSystem_init). reflexivity.
  - apply (evaluate_no_rules FuzzyInferenceSystem_init). reflexivity.
Defined.

(** ** Rule strengths *)

Lemma rule_strengths_consequents isets inputs rs strengths :
  rule_strengths isets inputs rs = Ok strengths ->
  map snd strengths = map snd rs.
Proof.
  revert strengths. induction rs as [|[antecedents c] rest IH];
    intros strengths H; cbn in H.
  - injection H as <-. reflexivity.
  - unfold mbind, result_bind in H.
    destruct (antecedents_loop isets inputs 1 antecedents); [|discriminate].
    destruct (rule_strengths isets inputs rest) as [tl|]; [|discriminate].
    injection H as <-. cbn. f_equal. now apply IH.
Qed.

(** C10.  With at least one rule and no output variable [evaluate]
    raises for every input mapping: either the rule strengths already
    fail, or picking the first output variable raises [IndexError],
    whatever the strengths are. *)
Theorem evaluate_without_output self inputs :
  rules self <> [] -> output_sets self = [] ->
  raises (evaluate self inputs) /\
  (forall strengths,
     rule_strengths (input_sets self) inputs (rules self) = Ok strengths ->
     evaluate self inputs = Raise IndexError).
Proof.
  intros Hr Ho. unfold evaluate. rewrite Ho.
  destruct (rule_strengths (input_sets self) inputs (rules self))
    as [strengths|e] eqn:E.
  - apply rule_strengths_consequents in E.
    destruct strengths as [|s strengths].
    + destruct (rules self); [contradiction | discriminate].
    + split; [exists IndexError; reflexivity | reflexivity].
  - split; [exists e; reflexivity | discriminate].
Qed.

Lemma evaluate_without_output_witness :
  evaluate (add_rule FuzzyInferenceSystem_init [] ("loan", "low")) ∅ =
  Raise IndexError.
Proof.
  destruct (evaluate_without_output
              (add_rule FuzzyInferenceSystem_init [] ("loan", "low")) ∅)
    as [_ H]; [discriminate | reflexivity |].
  apply (H [(1, ("loan", "low"))]). reflexivity.
Defined.

(** ** The output variable of the defuzzification *)





(** ** Minimum, maximum and sums up to [==] *)

Lemma minimum_compat (x x' : Q) (l : list Q) :
  x == x' -> minimum x l == minimum x' l.
Proof. intros H. destruct l; cbn; [exact H | now rewrite H]. Qed.

Lemma minimum_push (s m : Q) (l : list Q) :
  minimum (Qmin s m) l == Qmin s (minimum m l).
Proof. destruct l; cbn; [reflexivity | now rewrite Q.min_assoc]. Qed.

Lemma minimum_le_head (x : Q) (l : list Q) : minimum x l <= x.
Proof. destruct l; cbn; [lra | apply Q.le_min_l]. Qed.

Lemma minimum_nonneg (x : Q) (l : list Q) :
  0 <= x -> Forall (fun y => 0 <= y) l -> 0 <= minimum x l.
Proof.
  intros Hx Hl. revert x Hx. induction Hl as [|y l Hy Hl IH]; intros x Hx;
    cbn; [exact Hx|].
  apply Q.min_glb; [exact Hx | now apply IH].
Qed.

Lemma maximum_compat (x x' : Q) (l : list Q) :
  x == x' -> maximum x l == maximum x' l.
Proof. intros H. destruct l; cbn; [exact H | now rewrite H]. Qed.

Lemma maximum_push (s m : Q) (l : list Q) :
  maximum (Qmax s m) l == Qmax s (maximum m l).
Proof. destruct l; cbn; [reflexivity | now rewrite Q.max_assoc]. Qed.

Lemma maximum_ge_head (x : Q) (l : list Q) : x <= maximum x l.
Proof. destruct l; cbn; [lra | apply Q.le_max_l]. Qed.

Lemma Qsum_cons (x : Q) (l : list Q) : Qsum (x :: l) = x + Qsum l.
Proof. reflexivity. Qed.

(** ** Memberships lie in the unit interval *)

Lemma calculate_membership_range fs l x v :
  calculate_membership fs l x = Ok v -> 0 <= v <= 1.
Proof.
  unfold calculate_membership, mbind, result_bind.
  destruct (getitem (membership_functions fs) l) as [[mf_type params]|];
    [|discriminate].
  destruct (String.eqb mf_type "trimf").
  - destruct params as [|a [|b [|c [|? ?]]]]; try discriminate.
    destruct (_trimf_range x a b c) as (w & -> & Hw). now intros [= <-].
  - destruct (String.eqb mf_type "trapmf").
    + destruct params as [|a [|b [|c [|d [|? ?]]]]]; try discriminate.
      destruct (_trapmf_range x a b c d) as (w & -> & Hw). now intros [= <-].
    + intros [= <-]. lra.
Qed.

Lemma fuzzify_range isets inputs a v :
  fuzzify isets inputs a = Ok v -> 0 <= v <= 1.
Proof.
  unfold fuzzify, mbind, result_bind.
  destruct (getitem inputs (fst a)); [|discriminate].
  destruct (getitem isets (fst a)); [|discriminate].
  apply calculate_membership_range.
Qed.

(** ** The loops of [evaluate] against the specification *)

Section Refinement.
Variable isets : gmap string FuzzySet.
Variable inputs : gmap string Q.
Variable out : FuzzySet.
Variable mu_in : antecedent -> Q.
Variable mu_out : string -> Q -> Q.

Lemma antecedents_loop_minimum (antecedents : list antecedent) :
  Forall (fun a => fuzzify isets inputs a = Ok (mu_in a)) antecedents ->
  forall strength,
  exists v, antecedents_loop isets inputs strength antecedents = Ok v /\
            v == minimum strength (map mu_in antecedents).
Proof.
  induction 1 as [|[var_name mf_name] rest Ha Hrest IH]; intros strength.
  - exists strength. split; reflexivity.
  - cbn [antecedents_loop]. unfold fuzzify in Ha. cbn [fst snd] in Ha.
    unfold mbind, result_bind in *.
    destruct (getitem inputs var_name) as [x|]; [|discriminate].
    destruct (getitem isets var_name) as [fs|]; [|discriminate].
    rewrite Ha.
    destruct (IH (Qmin strength (mu_in (var_name, mf_name)))) as (v & -> & Hv).
    exists v. split; [reflexivity|]. rewrite Hv. cbn [map minimum].
    apply minimum_push.
Qed.

Lemma firing_strength_from_one (antecedents : list antecedent) :
  Forall (fun a => fuzzify isets inputs a = Ok (mu_in a)) antecedents ->
  minimum 1 (map mu_in antecedents) ==
  match map mu_in antecedents with
  | [] => 1
  | m :: ms => minimum m ms
  end /\
  0 <= minimum 1 (map mu_in antecedents).
Proof.
  intros H. assert (Hr : Forall (fun m => 0 <= m <= 1) (map mu_in antecedents)).
  { induction H as [|a l Ha _ IH]; cbn; constructor;
      [eapply fuzzify_range; exact Ha | exact IH]. }
  split.
  - destruct Hr as [|m ms Hm _]; cbn; [reflexivity|].
    apply Q.min_r. pose proof (minimum_le_head m ms). lra.
  - apply minimum_nonneg; [lra|].
    eapply Forall_impl; [exact Hr|]. cbn. intros; lra.
Qed.

Lemma rule_strengths_firing (rs : list rule) :
  Forall (fun r : rule =>
            Forall (fun a => fuzzify isets inputs a = Ok (mu_in a)) (fst r)) rs ->
  exists s, rule_strengths isets inputs rs = Ok s /\ Forall2 (matches mu_in) s rs.
Proof.
  induction 1 as [|[antecedents c] rest Hr Hrest (tl & Htl & Hm)].
  - exists []. split; [reflexivity | constructor].
  - cbn [rule_strengths fst] in *. unfold mbind, result_bind.
    destruct (antecedents_loop_minimum antecedents Hr 1) as (v & -> & Hv).
    rewrite Htl. eexists. split; [reflexivity|].
    destruct (firing_strength_from_one antecedents Hr) as [Heq Hpos].
    constructor; [|exact Hm].
    unfold matches, spec_firing_strength. cbn [fst snd].
    repeat split; [now rewrite Hv, Heq | now rewrite Hv].
Qed.

Lemma max_membership_loop_maximum (y : Q) s (rs : list rule) :
  Forall2 (matches mu_in) s rs ->
  Forall (fun r : rule =>
            calculate_membership out (snd (snd r)) y =
            Ok (mu_out (snd (snd r)) y)) rs ->
  forall acc,
  exists v, max_membership_loop out y acc s = Ok v /\
            v == maximum acc (map (spec_clipped mu_in mu_out y) rs).
Proof.
  induction 1 as [|[strength [o l]] [ants [o' l']] s rs (Hs & _ & Hc) Hrest IH];
    intros Hout acc.
  - exists acc. split; reflexivity.
  - inversion Hout as [|r' rs' Hr Hrs]; subst.
    cbn [fst snd] in *. injection Hc as -> ->.
    cbn [max_membership_loop]. unfold mbind, result_bind. rewrite Hr.
    destruct (IH Hrs (Qmax acc (Qmin strength (mu_out l' y))))
      as (v & -> & Hv).
    exists v. split; [reflexivity|]. rewrite Hv. cbn [map maximum].
    rewrite maximum_push. apply Q.max_compat; [reflexivity|].
    apply maximum_compat. unfold spec_clipped. cbn [snd].
    now rewrite Hs.
Qed.

Lemma clipped_nonneg (y : Q) (r : rule) (s : Q) :
  s == spec_firing_strength mu_in r -> 0 <= s ->
  calculate_membership out (snd (snd r)) y = Ok (mu_out (snd (snd r)) y) ->
  0 <= spec_clipped mu_in mu_out y r.
Proof.
  intros Hs Hpos Hm. apply calculate_membership_range in Hm.
  unfold spec_clipped. rewrite <- Hs. apply Q.min_glb; lra.
Qed.

Lemma max_membership_loop_aggregated (y : Q) s (rs : list rule) :
  Forall2 (matches mu_in) s rs ->
  Forall (fun r : rule =>
            calculate_membership out (snd (snd r)) y =
            Ok (mu_out (snd (snd r)) y)) rs ->
  exists v, max_membership_loop out y 0 s = Ok v /\
            v == spec_aggregated mu_in mu_out rs y.
Proof.
  intros Hm Hout.
  destruct (max_membership_loop_maximum y s rs Hm Hout 0) as (v & Hv & Heq).
  exists v. split; [exact Hv|]. rewrite Heq. unfold spec_aggregated.
  destruct Hm as [|sc r s rs (Hs & Hpos & _) _]; cbn [map maximum];
    [reflexivity|].
  inversion Hout as [|r' rs' Hr Hrs]; subst.
  apply Q.max_r.
  pose proof (clipped_nonneg y r (fst sc) Hs Hpos Hr).
  pose proof (maximum_ge_head (spec_clipped mu_in mu_out y r)
                (map (spec_clipped mu_in mu_out y) rs)).
  lra.
Qed.

Lemma universe_loop_sums s (rs : list rule) (points : list Q) :
  Forall2 (matches mu_in) s rs ->
  Forall (fun y =>
            Forall (fun r : rule =>
                      calculate_membership out (snd (snd r)) y =
                      Ok (mu_out (snd (snd r)) y)) rs) points ->
  forall acc,
  exists n d, universe_loop out s acc points = Ok (n, d) /\
    n == fst acc + spec_numerator mu_in mu_out rs points /\
    d == snd acc + spec_denominator mu_in mu_out rs points.
Proof.
  intros Hm. induction 1 as [|y rest Hy Hrest IH]; intros acc.
  - exists (fst acc), (snd acc). destruct acc as [n d].
    split; [reflexivity|].
    unfold spec_numerator, spec_denominator.
    cbn [fst snd map Qsum fold_right]. split; ring.
  - cbn [universe_loop]. unfold mbind, result_bind.
    destruct (max_membership_loop_aggregated y s rs Hm Hy) as (v & -> & Hv).
    destruct (IH (fst acc + y * v, snd acc + v)) as (n & d & -> & Hn & Hd).
    exists n, d. split; [reflexivity|].
    unfold spec_numerator, spec_denominator in *. cbn [fst snd map] in *.
    rewrite !Qsum_cons, Hn, Hd, Hv. split; ring.
Qed.
End Refinement.

(** ** Defuzzification *)

Lemma universe_loop_pointwise out strengths (points ms : list Q) :
  Forall2 (aggregates_to out strengths) points ms ->
  forall acc,
  exists n d, universe_loop out strengths acc points = Ok (n, d) /\
    n == fst acc + weighted_sum points ms /\ d == snd acc + Qsum ms.
Proof.
  induction 1 as [|y m points ms (v & Hv & Hm) Hrest IH]; intros acc.
  - exists (fst acc), (snd acc). destruct acc as [n d].
    split; [reflexivity|]. cbn [fst snd weighted_sum Qsum fold_right].
    split; ring.
  - cbn [universe_loop]. unfold mbind, result_bind. rewrite Hv.
    destruct (IH (fst acc + y * v, snd acc + v)) as (n & d & -> & Hn & Hd).
    exists n, d. split; [reflexivity|]. cbn [fst snd weighted_sum] in *.
    rewrite Qsum_cons, Hn, Hd, Hm. split; ring.
Qed.

Lemma weighted_sum_zero (points ms : list Q) :
  Forall (fun m => m == 0) ms -> weighted_sum points ms == 0 /\ Qsum ms == 0.
Proof.
  intros H. revert points. induction H as [|m ms Hm _ IH]; intros points.
  - destruct points; split; reflexivity.
  - destruct points as [|y points]; cbn [weighted_sum]; rewrite Qsum_cons.
    + destruct (IH []) as [_ ->]. rewrite Hm. split; [reflexivity | ring].
    + destruct (IH points) as [-> ->]. rewrite Hm. split; ring.
Qed.

Lemma evaluate_from_sums self inputs strengths out n d :
  rule_strengths (input_sets self) inputs (rules self) = Ok strengths ->
  strengths <> [] ->
  first_value (output_sets self) = Ok out ->
  universe_loop out strengths (0, 0) (universe out) = Ok (n, d) ->
  evaluate self inputs = (if Qeq_bool d 0 then Ok 0 else Ok (n / d)).
Proof.
  intros Hs Hne Ho Hu. unfold evaluate. rewrite Hs.
  unfold mbind at 1, result_bind at 1.
  destruct strengths as [|sc strengths]; [contradiction|].
  rewrite Ho. unfold mbind, result_bind. rewrite Hu.
  destruct (Qeq_bool d 0); reflexivity.
Qed.

Lemma aggregates_to_zeros out strengths (points : list Q) :
  Forall (fun y => aggregates_to out strengths y 0) points ->
  Forall2 (aggregates_to out strengths) points (map (fun _ => 0) points).
Proof. induction 1; cbn [map]; constructor; assumption. Qed.

(** C6.  When the aggregated membership is [0] at every point of the
    output universe, or more generally when the denominator of the
    centroid comes out as zero, [evaluate] returns [0] and does not
    raise. *)
Theorem evaluate_zero_denominator self inputs strengths out :
  rule_strengths (input_sets self) inputs (rules self) = Ok strengths ->
  first_value (output_sets self) = Ok out ->
  (Forall (fun y => aggregates_to out strengths y 0) (universe out) ->
   evaluate self inputs = Ok 0) /\
  (forall n d,
     universe_loop out strengths (0, 0) (universe out) = Ok (n, d) ->
     d == 0 -> evaluate self inputs = Ok 0).
Proof.
  intros Hs Ho.
  assert (Hgen : forall n d,
             universe_loop out strengths (0, 0) (universe out) = Ok (n, d) ->
             d == 0 -> evaluate self inputs = Ok 0).
  { intros n d Hu Hd. destruct strengths as [|sc tl] eqn:E.
    - unfold evaluate. now rewrite Hs.
    - rewrite (evaluate_from_sums self inputs _ out n d Hs) by
        (try discriminate; assumption).
      destruct (Qeq_bool_reflect d 0); [reflexivity | contradiction]. }
  split; [|exact Hgen].
  intros Hz.
  assert (H2 : Forall2 (aggregates_to out strengths) (universe out)
                 (map (fun _ => 0) (universe out))).
  { apply aggregates_to_zeros. exact Hz. }
  destruct (universe_loop_pointwise out strengths _ _ H2 (0, 0))
    as (n & d & Hu & _ & Hd).
  apply (Hgen n d Hu).
  destruct (weighted_sum_zero (universe out) (map (fun _ => 0) (universe out)))
    as [_ Hsum].
  { apply List.Forall_forall. intros m Hm.
    apply in_map_iff in Hm as (? & <- & _). reflexivity. }
  rewrite Hd, Hsum. cbn [snd]. ring.
Qed.

(** A run whose lookups all resolve returns the centroid of the
    aggregated memberships, or [0] when they sum to zero. *)
Lemma evaluate_resolved self inputs out mu_in mu_out :
  rules self <> [] ->
  first_value (output_sets self) = Ok out ->
  resolves self inputs out mu_in mu_out ->
  exists strengths r,
    rule_strengths (input_sets self) inputs (rules self) = Ok strengths /\
    Forall2 (fun (sc : Q * consequent) (rl : rule) =>
               fst sc == spec_firing_strength mu_in rl)
            strengths (rules self) /\
    Forall (fun y =>
              aggregates_to out strengths y
                (spec_aggregated mu_in mu_out (rules self) y))
           (universe out) /\
    evaluate self inputs = Ok r /\
    (~ spec_denominator mu_in mu_out (rules self) (universe out) == 0 ->
     r == spec_numerator mu_in mu_out (rules self) (universe out) /
          spec_denominator mu_in mu_out (rules self) (universe out)) /\
    (spec_denominator mu_in mu_out (rules self) (universe out) == 0 ->
     r == 0).
Proof.
  intros Hne Ho [Hin Hout].
  destruct (rule_strengths_firing (input_sets self) inputs mu_in _ Hin)
    as (strengths & Hs & Hm).
  destruct (universe_loop_sums out mu_in mu_out strengths _ _ Hm Hout (0, 0))
    as (n & d & Hu & Hn & Hd).
  cbn [fst snd] in Hn, Hd. rewrite Qplus_0_l in Hn, Hd.
  assert (Hsne : strengths <> []).
  { intros ->. inversion Hm. congruence. }
  exists strengths, (if Qeq_bool d 0 then 0 else n / d).
  split; [exact Hs|]. split; [|split; [|split; [|split]]].
  - eapply Forall2_impl; [exact Hm|]. now intros sc rl (H & _).
  - eapply Forall_impl; [exact Hout|]. cbn. intros y Hy.
    apply (max_membership_loop_aggregated out mu_in mu_out y _ _ Hm Hy).
  - rewrite (evaluate_from_sums self inputs strengths out n d Hs Hsne Ho Hu).
    destruct (Qeq_bool d 0); reflexivity.
  - intros Hnz. destruct (Qeq_bool_reflect d 0) as [Hz|_].
    + rewrite Hd in Hz. contradiction.
    + now rewrite Hn, Hd.
  - intros Hz. destruct (Qeq_bool_reflect d 0) as [_|Hnz]; [reflexivity|].
    rewrite Hd in Hnz. contradiction.
Qed.

(** ** Runs that return *)

Lemma antecedents_loop_ok self inputs antecedents :
  forall strength v,
  antecedents_loop (input_sets self) inputs strength antecedents = Ok v ->
  Forall (fun a => fuzzify (input_sets self) inputs a =
                   Ok (run_mu_in self inputs a)) antecedents.
Proof.
  induction antecedents as [|[var_name mf_name] rest IH]; intros strength v H;
    [constructor|].
  cbn [antecedents_loop] in H.
  assert (Hf : exists m,
             fuzzify (input_sets self) inputs (var_name, mf_name) = Ok m /\
             antecedents_loop (input_sets self) inputs (Qmin strength m) rest =
             Ok v).
  { unfold fuzzify, mbind, result_bind in *. cbn [fst snd].
    destruct (getitem inputs var_name) as [x|]; [|discriminate].
    destruct (getitem (input_sets self) var_name) as [fs|]; [|discriminate].
    destruct (calculate_membership fs mf_name x) as [m|]; [|discriminate].
    exists m. split; [reflexivity | exact H]. }
  destruct Hf as (m & Hm & Hrest). constructor.
  - unfold run_mu_in. now rewrite Hm.
  - eapply IH. exact Hrest.
Qed.

Lemma rule_strengths_ok self inputs (rs : list rule) :
  forall s,
  rule_strengths (input_sets self) inputs rs = Ok s ->
  Forall (fun r : rule =>
            Forall (fun a => fuzzify (input_sets self) inputs a =
                             Ok (run_mu_in self inputs a)) (fst r)) rs.
Proof.
  induction rs as [|[antecedents c] rest IH]; intros s H; [constructor|].
  cbn [rule_strengths] in H. unfold mbind, result_bind in H.
  destruct (antecedents_loop (input_sets self) inputs 1 antecedents)
    as [v|] eqn:Hv; [|discriminate].
  destruct (rule_strengths (input_sets self) inputs rest) as [tl|] eqn:Htl;
    [|discriminate].
  constructor; [eapply antecedents_loop_ok; exact Hv | eapply IH; reflexivity].
Qed.

Lemma max_membership_loop_ok out y s :
  forall acc v,
  max_membership_loop out y acc s = Ok v ->
  Forall (fun c : consequent =>
            calculate_membership out (snd c) y = Ok (run_mu_out out (snd c) y))
         (map snd s).
Proof.
  induction s as [|[strength [o l]] s IH]; intros acc v H; [constructor|].
  cbn [max_membership_loop] in H. unfold mbind, result_bind in H.
  destruct (calculate_membership out l y) as [m|] eqn:Hm; [|discriminate].
  cbn [map snd]. constructor.
  - unfold run_mu_out. cbn [snd]. now rewrite Hm.
  - eapply IH. exact H.
Qed.

Lemma universe_loop_ok out s (points : list Q) :
  forall acc nd,
  universe_loop out s acc points = Ok nd ->
  Forall (fun y =>
            Forall (fun c : consequent =>
                      calculate_membership out (snd c) y =
                      Ok (run_mu_out out (snd c) y)) (map snd s)) points.
Proof.
  induction points as [|y rest IH]; intros acc nd H; [constructor|].
  cbn [universe_loop] in H. unfold mbind, result_bind in H.
  destruct (max_membership_loop out y 0 s) as [v|] eqn:Hv; [|discriminate].
  constructor; [eapply max_membership_loop_ok; exact Hv | eapply IH; exact H].
Qed.

Lemma evaluate_ok_resolves self inputs r :
  rules self <> [] ->
  evaluate self inputs = Ok r ->
  exists out,
    first_value (output_sets self) = Ok out /\
    resolves self inputs out (run_mu_in self inputs) (run_mu_out out).
Proof.
  intros Hne H. unfold evaluate in H.
  destruct (rule_strengths (input_sets self) inputs (rules self))
    as [s|] eqn:Hs; [|discriminate].
  unfold mbind at 1, result_bind at 1 in H.
  pose proof (rule_strengths_consequents _ _ _ _ Hs) as Hc.
  destruct s as [|sc s]; [destruct (rules self); [contradiction|discriminate]|].
  destruct (first_value (output_sets self)) as [out|]; [|discriminate].
  unfold mbind at 1, result_bind at 1 in H.
  exists out. split; [reflexivity|]. split.
  - eapply rule_strengths_ok. exact Hs.
  - unfold mbind, result_bind in H.
    destruct (universe_loop out (sc :: s) (0, 0) (universe out))
      as [nd|] eqn:Hu; [|discriminate].
    apply universe_loop_ok in Hu. rewrite Hc in Hu.
    eapply Forall_impl; [exact Hu|]. cbn beta. intros y Hy.
    apply Forall_map in Hy. exact Hy.
Qed.

(** C1.  For an engine with at least one rule: a run that returns has a
    first output variable and resolves every lookup; and with a first
    output variable [out] and every lookup resolving, the strengths
    computed by [evaluate] are the minima over the antecedents, at every
    point [y] of the universe of [out] its inner loop ends with the
    maximum over the rules of the minimum of strength and consequent
    membership, and the result is the centroid of these values (and [0]
    when they sum to zero). *)
Theorem evaluate_centroid self inputs :
  rules self <> [] ->
  (forall r,
     evaluate self inputs = Ok r ->
     exists out,
       first_value (output_sets self) = Ok out /\
       resolves self inputs out (run_mu_in self inputs) (run_mu_out out)) /\
  (forall out mu_in mu_out,
     first_value (output_sets self) = Ok out ->
     resolves self inputs out mu_in mu_out ->
     exists strengths r,
       rule_strengths (input_sets self) inputs (rules self) = Ok strengths /\
       Forall2 (fun (sc : Q * consequent) (rl : rule) =>
                  fst sc == spec_firing_strength mu_in rl)
               strengths (rules self) /\
       Forall (fun y =>
                 aggregates_to out strengths y
                   (spec_aggregated mu_in mu_out (rules self) y))
              (universe out) /\
       evaluate self inputs = Ok r /\
       (~ spec_denominator mu_in mu_out (rules self) (universe out) == 0 ->
        r == spec_numerator mu_in mu_out (rules self) (universe out) /
             spec_denominator mu_in mu_out (rules self) (universe out)) /\
       (spec_denominator mu_in mu_out (rules self) (universe out) == 0 ->
        r == 0)).
Proof.
  intros Hne. split.
  - intros r. now apply evaluate_ok_resolves.
  - intros out mu_in mu_out. now apply evaluate_resolved.
Qed.

Lemma evaluate_centroid_witness :
  exists r, evaluate example_engine example_inputs = Ok r /\ r == 5.
Proof.
  destruct (evaluate_centroid example_engine example_inputs) as [_ H];
    [discriminate|].
  destruct (H example_output example_mu_in example_mu_out)
    as (strengths & r & _ & _ & _ & Hr & Hcentroid & _).
  - reflexivity.
  - split; vm_compute; repeat constructor.
  - exists r. split; [exact Hr|]. rewrite Hcentroid.
    + reflexivity.
    + discriminate.
Defined.

Lemma evaluate_zero_denominator_witness :
  evaluate example_engine example_inputs_off = Ok 0.
Proof.
  destruct (evaluate_zero_denominator example_engine example_inputs_off
              [(0, ("y", "medium"))] example_output) as [H _].
  - reflexivity.
  - reflexivity.
  - apply H. vm_compute. repeat constructor; eexists; split; reflexivity.
Defined.


(** ** The worked example *)

Lemma single_rule_point out y s o l m m' :
  calculate_membership out l y = Ok m -> m == m' -> s == 1 ->
  aggregates_to out [(s, (o, l))] y m'.
Proof.
  intros Hm Heq Hs. unfold aggregates_to. cbn [max_membership_loop].
  unfold mbind, result_bind. rewrite Hm. eexists. split; [reflexivity|].
  apply calculate_membership_range in Hm.
  rewrite Hs, Q.min_r by lra. rewrite Q.max_r by lra. exact Heq.
Qed.

(** C5.  On the universe [arange(0, 10, 1)], with a single rule of
    firing strength [1] whose consequent label is [Triangular(2, 5, 8)]:
    the universe is [0..9], the aggregated memberships are
    [0, 0, 0, 1/3, 2/3, 1, 2/3, 1/3, 0, 0], the numerator is [15], the
    denominator [3], and [evaluate] returns [5]. *)
Theorem worked_example self inputs antecedents output_name mf_name s out :
  rules self = [(antecedents, (output_name, mf_name))] ->
  antecedents_loop (input_sets self) inputs 1 antecedents = Ok s ->
  s == 1 ->
  first_value (output_sets self) = Ok out ->
  arange 0 10 1 = Ok (universe out) ->
  membership_functions out !! mf_name = Some ("trimf"%string, [2; 5; 8]) ->
  universe out = [0; 1; 2; 3; 4; 5; 6; 7; 8; 9] /\
  Forall2 (aggregates_to out [(s, (output_name, mf_name))]) (universe out)
    [0; 0; 0; 1 # 3; 2 # 3; 1; 2 # 3; 1 # 3; 0; 0] /\
  exists n d r,
    universe_loop out [(s, (output_name, mf_name))] (0, 0) (universe out) =
    Ok (n, d) /\
    n == 15 /\ d == 3 /\ evaluate self inputs = Ok r /\ r == 5.
Proof.
  intros Hrules Hloop Hs Hout Hu Hmf.
  assert (Hpoints : universe out = [0; 1; 2; 3; 4; 5; 6; 7; 8; 9]).
  { vm_compute in Hu. injection Hu as Hu. symmetry. exact Hu. }
  assert (Hagg : Forall2 (aggregates_to out [(s, (output_name, mf_name))])
                   (universe out)
                   [0; 0; 0; 1 # 3; 2 # 3; 1; 2 # 3; 1 # 3; 0; 0]).
  { rewrite Hpoints.
    repeat (apply List.Forall2_cons;
            [eapply single_rule_point;
             [unfold calculate_membership, getitem; rewrite Hmf; reflexivity
             |vm_compute; reflexivity
             |exact Hs]|]).
    apply List.Forall2_nil. }
  split; [exact Hpoints|]. split; [exact Hagg|].
  destruct (universe_loop_pointwise out _ _ _ Hagg (0, 0))
    as (n & d & Hn & Hnum & Hden).
  assert (Hn15 : n == 15) by (rewrite Hnum, Hpoints; vm_compute; reflexivity).
  assert (Hd3 : d == 3) by (rewrite Hden; vm_compute; reflexivity).
  exists n, d, (n / d). split; [exact Hn|]. split; [exact Hn15|].
  split; [exact Hd3|]. split.
  - rewrite (evaluate_from_sums self inputs [(s, (output_name, mf_name))]
               out n d); try assumption; try discriminate.
    + destruct (Qeq_bool_reflect d 0) as [Hz|_]; [|reflexivity].
      rewrite Hd3 in Hz. discriminate.
    + rewrite Hrules. cbn [rule_strengths]. unfold mbind, result_bind.
      now rewrite Hloop.
  - rewrite Hn15, Hd3. vm_compute. reflexivity.
Qed.

Lemma worked_example_witness :
  exists r, evaluate example_engine example_inputs = Ok r /\ r == 5.
Proof.
  destruct (worked_example example_engine example_inputs [("x", "mid")]
              "y" "medium" 1 example_output)
    as (_ & _ & n & d & r & _ & _ & _ & Hr & H5);
    try reflexivity.
  exists r. split; [exact Hr | exact H5].
Defined.

(** * Further properties of the code *)

(** ** Support and core of the membership functions *)



Lemma ratio_is_one (n d : Q) : 0 < d -> (n / d == 1 <-> n == d).
Proof.
  intros Hd. pose proof (quotient_scale n d Hd) as H. split; intros E.
  - rewrite E in H. lra.
  - rewrite E. apply ratio_one. lra.
Qed.

Lemma ratio_mono (n n' d : Q) : n <= n' -> 0 < d -> n / d <= n' / d.
Proof.
  intros Hn Hd. unfold Qdiv. apply Qmult_le_compat_r; [exact Hn|].
  apply Qinv_le_0_compat. lra.
Qed.



(** X3.  A trapezoid whose plateau is the single point [b] is the
    triangle with peak [b]: [_trapmf x [a, b, b, d]] and
    [_trimf x [a, b, d]] return equal degrees for every [x] and all
    parameters. *)
Theorem _trapmf_flat_is_trimf (x a b d : Q) :
  exists v w,
    _trapmf x [a; b; b; d] = Ok v /\ _trimf x [a; b; d] = Ok w /\ v == w.
Proof.
  destruct (_trapmf_cases x a b b d) as (T0 & T1 & Tup & Tdown).
  destruct (_trimf_cases x a b d) as (H0 & Hup & Hdown).
  destruct (Qlt_le_dec a x) as [Ha|Ha];
    [|exists 0, 0; repeat split; auto; reflexivity].
  destruct (Qlt_le_dec x d) as [Hd|Hd];
    [|exists 0, 0; repeat split; auto; reflexivity].
  destruct (Qlt_le_dec x b) as [Hb|Hb].
  - do 2 eexists. split; [apply Tup; assumption|].
    split; [apply Hup; lra | reflexivity].
  - destruct (Qlt_le_dec b x) as [Hb'|Hb'].
    + do 2 eexists. split; [apply Tdown; lra|].
      split; [apply Hdown; assumption | reflexivity].
    + do 2 eexists. split; [apply T1; lra|].
      split; [apply Hup; lra|].
      symmetry. apply ratio_is_one; lra.
Qed.

(** X4.  A triangle with [a < b < c] rises up to [b] and falls from [b]:
    for [x <= y] the degree of [x] is at most that of [y] when [y <= b],
    and at least that of [y] when [b <= x]. *)
Theorem _trimf_unimodal (a b c x y v w : Q) :
  a < b -> b < c -> x <= y ->
  _trimf x [a; b; c] = Ok v -> _trimf y [a; b; c] = Ok w ->
  (y <= b -> v <= w) /\ (b <= x -> w <= v).
Proof.
  intros Hab Hbc Hxy Hv Hw.
  destruct (_trimf_cases x a b c) as (X0 & Xup & Xdown).
  destruct (_trimf_cases y a b c) as (Y0 & Yup & Ydown).
  destruct (_trimf_range x a b c) as (v' & Hv' & Rv).
  destruct (_trimf_range y a b c) as (w' & Hw' & Rw).
  rewrite Hv in Hv'. injection Hv' as <-.
  rewrite Hw in Hw'. injection Hw' as <-.
  split.
  - intros Hyb.
    destruct (Qlt_le_dec a x) as [Ha|Ha].
    + rewrite Xup in Hv by lra. rewrite Yup in Hw by lra.
      injection Hv as <-. injection Hw as <-. apply ratio_mono; lra.
    + rewrite X0 in Hv by lra. injection Hv as <-. lra.
  - intros Hbx.
    destruct (Qlt_le_dec y c) as [Hc|Hc].
    + destruct (Qlt_le_dec b x) as [Hb|Hb].
      * rewrite Xdown in Hv by lra. rewrite Ydown in Hw by lra.
        injection Hv as <-. injection Hw as <-. apply ratio_mono; lra.
      * rewrite Xup in Hv by lra. injection Hv as <-.
        assert ((x - a) / (b - a) == 1) by (apply ratio_is_one; lra). lra.
    + rewrite Y0 in Hw by lra. injection Hw as <-. lra.
Qed.

Lemma _trimf_unimodal_witness :
  exists v w, _trimf 3 [2; 5; 8] = Ok v /\ _trimf 4 [2; 5; 8] = Ok w /\ v <= w.
Proof.
  exists (1 # 3), (2 # 3). split; [reflexivity|]. split; [reflexivity|].
  apply (_trimf_unimodal 2 5 8 3 4 (1 # 3) (2 # 3));
    try reflexivity; discriminate.
Defined.

(** X5.  A trapezoid with [a < b <= c < d] rises up to [b] and falls
    from [c]: for [x <= y] the degree of [x] is at most that of [y] when
    [y <= c], and at least that of [y] when [b <= x]. *)
Theorem _trapmf_unimodal (a b c d x y v w : Q) :
  a < b -> b <= c -> c < d -> x <= y ->
  _trapmf x [a; b; c; d] = Ok v -> _trapmf y [a; b; c; d] = Ok w ->
  (y <= c -> v <= w) /\ (b <= x -> w <= v).
Proof.
  intros Hab Hbc Hcd Hxy Hv Hw.
  destruct (_trapmf_cases x a b c d) as (X0 & X1 & Xup & Xdown).
  destruct (_trapmf_cases y a b c d) as (Y0 & Y1 & Yup & Ydown).
  destruct (_trapmf_range x a b c d) as (v' & Hv' & Rv).
  destruct (_trapmf_range y a b c d) as (w' & Hw' & Rw).
  rewrite Hv in Hv'. injection Hv' as <-.
  rewrite Hw in Hw'. injection Hw' as <-.
  split.
  - intros Hyc.
    destruct (Qlt_le_dec a x) as [Ha|Ha].
    + destruct (Qlt_le_dec y b) as [Hb|Hb].
      * rewrite Xup in Hv by lra. rewrite Yup in Hw by lra.
        injection Hv as <-. injection Hw as <-. apply ratio_mono; lra.
      * rewrite Y1 in Hw by lra. injection Hw as <-. lra.
    + rewrite X0 in Hv by lra. injection Hv as <-. lra.
  - intros Hbx.
    destruct (Qlt_le_dec y d) as [Hd|Hd].
    + destruct (Qlt_le_dec c x) as [Hc|Hc].
      * rewrite Xdown in Hv by lra. rewrite Ydown in Hw by lra.
        injection Hv as <-. injection Hw as <-. apply ratio_mono; lra.
      * rewrite X1 in Hv by lra. injection Hv as <-. lra.
    + rewrite Y0 in Hw by lra. injection Hw as <-. lra.
Qed.

Lemma _trapmf_unimodal_witness :
  exists v w,
    _trapmf 7 [2; 4; 6; 8] = Ok v /\ _trapmf 8 [2; 4; 6; 8] = Ok w /\ w <= v.
Proof.
  exists (1 # 2), 0. split; [reflexivity|]. split; [reflexivity|].
  apply (_trapmf_unimodal 2 4 6 8 7 8 (1 # 2) 0);
    try reflexivity; discriminate.
Defined.

(** ** Registering and querying membership functions *)

Lemma _trimf_outcomes (x : Q) (params : list Q) :
  if Nat.eqb (length params) 3
  then exists v, _trimf x params = Ok v /\ 0 <= v <= 1
  else _trimf x params = Raise ValueError.
Proof.
  destruct params as [|a [|b [|c [|? ?]]]]; try reflexivity.
  apply _trimf_range.
Qed.

Lemma _trapmf_outcomes (x : Q) (params : list Q) :
  if Nat.eqb (length params) 4
  then exists v, _trapmf x params = Ok v /\ 0 <= v <= 1
  else _trapmf x params = Raise ValueError.
Proof.
  destruct params as [|a [|b [|c [|d [|? ?]]]]]; try reflexivity.
  apply _trapmf_range.
Qed.


(** X7.  After [add_mf] the label answers with the new function, also
    when it replaces an older one, and every other label answers as
    before; the universe is untouched. *)
Theorem add_mf_calculate_membership (fs : FuzzySet) (l mf_type : string)
    (params : list Q) (l' : string) (x : Q) :
  calculate_membership (add_mf fs l mf_type params) l' x =
  (if String.eqb l' l
   then if String.eqb mf_type "trimf" then _trimf x params
        else if String.eqb mf_type "trapmf" then _trapmf x params
        else Ok 0
   else calculate_membership fs l' x) /\
  universe (add_mf fs l mf_type params) = universe fs.
Proof.
  split; [|reflexivity].
  unfold calculate_membership, add_mf, getitem. cbn [membership_functions].
  destruct (String.eqb_spec l' l) as [->|Hne].
  - now rewrite lookup_insert_eq.
  - rewrite lookup_insert_ne by congruence. reflexivity.
Qed.

(** ** The registry of output variables *)

Lemma dict_set_keys {V : Type} (k : string) (v : V) (d : list (string * V)) :
  keys (dict_set k v d) = if existsb (String.eqb k) (keys d) then keys d
                          else keys d ++ [k].
Proof.
  unfold keys. induction d as [|[k' v'] d IH]; [reflexivity|].
  cbn [dict_set map fst existsb].
  destruct (String.eqb_spec k k') as [->|_]; [reflexivity|].
  cbn [map fst orb]. rewrite IH.
  destruct (existsb (String.eqb k) (map fst d)); reflexivity.
Qed.

Lemma dict_set_lookup {V : Type} (k : string) (v : V) (d : list (string * V)) :
  List.NoDup (keys d) ->
  forall k' v', In (k', v') (dict_set k v d) <->
                (k' = k /\ v' = v) \/ (k' <> k /\ In (k', v') d).
Proof.
  unfold keys. induction d as [|[k0 v0] d IH]; intros Hnd k' v'.
  - cbn. split.
    + intros [[= -> ->]|[]]. now left.
    + intros [[-> ->]|[_ []]]. now left.
  - cbn [dict_set]. cbn [map fst] in Hnd.
    apply List.NoDup_cons_iff in Hnd as [Hk0 Hnd].
    destruct (String.eqb_spec k k0) as [->|Hne].
    + cbn [In]. split.
      * intros [[= -> ->]|H]; [now left|].
        right. split; [|now right]. intros ->. apply Hk0.
        apply in_map_iff. exists (k0, v'). split; [reflexivity|exact H].
      * intros [[-> ->]|[Hk [[= -> ->]|H]]];
          [now left | congruence | now right].
    + cbn [In]. rewrite (IH Hnd). split.
      * intros [[= -> ->]|[[-> ->]|[Hk H]]];
          [right; split; [congruence | now left] | now left
          | right; split; [exact Hk | now right]].
      * intros [[-> ->]|[Hk [[= -> ->]|H]]];
          [right; now left | now left | right; right; now split].
Qed.

(** X8.  Registering an output variable keeps the registry a dictionary
    in insertion order: a new name goes to the end, a name already there
    keeps its place, names stay distinct, and afterwards the name maps to
    the new variable and no other entry has changed. *)
Theorem add_output_registry (self self' : FuzzyInferenceSystem) (nm : string)
    (universe_range : Q * Q * Q) :
  List.NoDup (keys (output_sets self)) ->
  add_output self nm universe_range = Ok self' ->
  keys (output_sets self') =
    (if existsb (String.eqb nm) (keys (output_sets self))
     then keys (output_sets self)
     else keys (output_sets self) ++ [nm]) /\
  List.NoDup (keys (output_sets self')) /\
  (exists fs, FuzzySet_init nm universe_range = Ok fs /\
     forall k v, In (k, v) (output_sets self') <->
                 (k = nm /\ v = fs) \/
                 (k <> nm /\ In (k, v) (output_sets self))) /\
  input_sets self' = input_sets self /\ rules self' = rules self.
Proof.
  intros Hnd H. unfold add_output, mbind, result_bind in H.
  destruct (FuzzySet_init nm universe_range) as [fs|]; [|discriminate].
  injection H as <-. cbn [output_sets input_sets rules].
  pose proof (dict_set_keys nm fs (output_sets self)) as Hk.
  split; [exact Hk|]. split; [|split; [|split; reflexivity]].
  - rewrite Hk.
    destruct (existsb (String.eqb nm) (keys (output_sets self))) eqn:E;
      [exact Hnd|].
    apply NoDup_ListNoDup, NoDup_app. apply NoDup_ListNoDup in Hnd.
    split; [exact Hnd|]. split.
    + intros k Hk1 Hk2%list_elem_of_singleton. subst k.
      apply list_elem_of_In in Hk1.
      assert (existsb (String.eqb nm) (keys (output_sets self)) = true)
        by (apply existsb_exists; exists nm; split;
            [exact Hk1 | apply String.eqb_refl]).
      congruence.
    + apply NoDup_singleton.
  - exists fs. split; [reflexivity|]. now apply dict_set_lookup.
Qed.

Lemma add_output_registry_witness :
  keys (output_sets example_two_outputs) = ["y"; "z"]%string.
Proof.
  destruct (add_output_registry example_engine example_two_outputs "z"
              (0, 4, 1)) as (Hk & _); [|reflexivity|exact Hk].
  vm_compute. repeat constructor. intros [].
Defined.

(** ** What [evaluate] can raise *)









(** X10.  A rule that names an input variable without a value, an input
    variable that is not registered, or a label that its input variable
    does not have, makes [evaluate] raise; so does a consequent label
    that the first output variable does not have, when that variable's
    universe has a point. *)
Theorem evaluate_unresolved self inputs r :
  In r (rules self) ->
  (forall a, In a (fst r) ->
     inputs !! fst a = None \/
     input_sets self !! fst a = None \/
     (exists fs, input_sets self !! fst a = Some fs /\
                 membership_functions fs !! snd a = None) ->
     raises (evaluate self inputs)) /\
  (forall out,
     first_value (output_sets self) = Ok out ->
     universe out <> [] ->
     membership_functions out !! snd (snd r) = None ->
     raises (evaluate self inputs)).
Proof.
  intros Hr.
  assert (Hne : rules self <> []) by (intros E; rewrite E in Hr; inversion Hr).
  split.
  - intros a Ha Hmiss.
    destruct (evaluate self inputs) as [v|e] eqn:E; [|now exists e].
    destruct (evaluate_ok_resolves self inputs v Hne E) as (out & _ & Hin & _).
    rewrite List.Forall_forall in Hin. specialize (Hin r Hr).
    rewrite List.Forall_forall in Hin. specialize (Hin a Ha).
    unfold fuzzify, getitem, mbind, result_bind in Hin.
    destruct Hmiss as [H|[H|(fs & H1 & H2)]].
    + rewrite H in Hin. discriminate.
    + destruct (inputs !! fst a); [|discriminate]. rewrite H in Hin.
      discriminate.
    + destruct (inputs !! fst a); [|discriminate]. rewrite H1 in Hin.
      unfold calculate_membership, getitem in Hin. rewrite H2 in Hin.
      discriminate.
  - intros out Ho Hu Hmiss.
    destruct (evaluate self inputs) as [v|e] eqn:E; [|now exists e].
    destruct (evaluate_ok_resolves self inputs v Hne E)
      as (out' & Ho' & _ & Hout).
    rewrite Ho in Ho'. injection Ho' as <-.
    destruct (universe out) as [|y rest]; [contradiction|].
    inversion Hout as [|? ? Hy _]; subst.
    rewrite List.Forall_forall in Hy. specialize (Hy r Hr).
    unfold calculate_membership, getitem in Hy. rewrite Hmiss in Hy.
    discriminate.
Qed.

Lemma evaluate_unresolved_witness :
  raises (evaluate example_engine ∅).
Proof.
  destruct (evaluate_unresolved example_engine ∅
              ([("x", "mid")], ("y", "medium"))) as [H _].
  - now left.
  - apply (H ("x", "mid")); [now left | now left].
Defined.

(** ** Checked engines return *)

Lemma label_ok_calculate fs l x :
  label_ok fs l = true ->
  calculate_membership fs l x = Ok (run_mu_out fs l x).
Proof.
  unfold label_ok, run_mu_out, mf_unpacks, calculate_membership, getitem.
  destruct (membership_functions fs !! l) as [[mf_type params]|];
    [|discriminate].
  cbn [mbind result_bind fst snd]. unfold mbind, result_bind.
  destruct (String.eqb mf_type "trimf").
  - intros E. pose proof (_trimf_outcomes x params) as H. rewrite E in H.
    destruct H as (v & -> & _). reflexivity.
  - destruct (String.eqb mf_type "trapmf"); [|reflexivity].
    intros E. pose proof (_trapmf_outcomes x params) as H. rewrite E in H.
    destruct H as (v & -> & _). reflexivity.
Qed.

Lemma antecedent_ok_fuzzify self inputs a :
  antecedent_ok (input_sets self) a = true ->
  is_Some (inputs !! fst a) ->
  fuzzify (input_sets self) inputs a = Ok (run_mu_in self inputs a).
Proof.
  unfold antecedent_ok, run_mu_in, fuzzify, getitem, mbind, result_bind.
  intros Hok [x ->].
  destruct (input_sets self !! fst a) as [fs|]; [|discriminate].
  now rewrite (label_ok_calculate fs (snd a) x Hok).
Qed.

Lemma validated_resolves self inputs k out rest :
  output_sets self = (k, out) :: rest ->
  validated self = true -> covers inputs self = true ->
  resolves self inputs out (run_mu_in self inputs) (run_mu_out out).
Proof.
  unfold validated, covers. intros -> Hv Hc.
  rewrite forallb_forall in Hv. rewrite forallb_forall in Hc. split.
  - apply List.Forall_forall. intros r Hr. apply List.Forall_forall.
    intros a Ha. specialize (Hv r Hr). specialize (Hc r Hr).
    apply andb_prop in Hv as [Hv _].
    rewrite forallb_forall in Hv. rewrite forallb_forall in Hc.
    specialize (Hv a Ha). specialize (Hc a Ha).
    apply antecedent_ok_fuzzify; [exact Hv|].
    destruct (inputs !! fst a); [eauto | discriminate].
  - apply List.Forall_forall. intros y _. apply List.Forall_forall.
    intros r Hr. specialize (Hv r Hr). apply andb_prop in Hv as [_ Hv].
    now apply label_ok_calculate.
Qed.

Lemma evaluate_returns self inputs :
  validated self = true -> covers inputs self = true ->
  exists r, evaluate self inputs = Ok r.
Proof.
  intros Hv Hc. destruct (rules self) as [|r0 rs] eqn:Hr.
  - exists 0. unfold evaluate. now rewrite Hr.
  - destruct (output_sets self) as [|[k out] rest] eqn:Ho.
    + unfold validated in Hv. rewrite Ho, Hr in Hv. discriminate.
    + pose proof (validated_resolves self inputs k out rest Ho Hv Hc) as Hres.
      destruct (evaluate_resolved self inputs out (run_mu_in self inputs)
                  (run_mu_out out)) as (s & r & _ & _ & _ & H & _).
      * rewrite Hr. discriminate.
      * rewrite Ho. reflexivity.
      * exact Hres.
      * now exists r.
Qed.



(** ** Degrees and the range of the result *)

Lemma antecedents_loop_unit isets inputs antecedents :
  forall strength v,
  0 <= strength <= 1 ->
  antecedents_loop isets inputs strength antecedents = Ok v ->
  0 <= v <= strength.
Proof.
  induction antecedents as [|[var_name mf_name] rest IH]; intros strength v Hs.
  - intros [= <-]. lra.
  - cbn [antecedents_loop]. unfold mbind, result_bind.
    destruct (getitem inputs var_name) as [x|]; [|discriminate].
    destruct (getitem isets var_name) as [fs|]; [|discriminate].
    destruct (calculate_membership fs mf_name x) as [m|] eqn:Hm;
      [|discriminate].
    apply calculate_membership_range in Hm. intros H.
    pose proof (Q.le_min_l strength m) as Hl.
    assert (Hg : 0 <= Qmin strength m) by (apply Q.min_glb; lra).
    apply IH in H; [lra | lra].
Qed.

Lemma rule_strengths_unit isets inputs rs s :
  rule_strengths isets inputs rs = Ok s ->
  Forall (fun sc : Q * consequent => 0 <= fst sc <= 1) s.
Proof.
  revert s. induction rs as [|[antecedents c] rest IH]; intros s.
  - intros [= <-]. constructor.
  - cbn [rule_strengths]. unfold mbind, result_bind.
    destruct (antecedents_loop isets inputs 1 antecedents) as [v|] eqn:Hv;
      [|discriminate].
    destruct (rule_strengths isets inputs rest) as [tl|]; [|discriminate].
    intros [= <-]. constructor; [|now apply IH].
    cbn [fst]. eapply antecedents_loop_unit; [|exact Hv]. lra.
Qed.

Lemma max_membership_loop_unit out y s :
  Forall (fun sc : Q * consequent => 0 <= fst sc <= 1) s ->
  forall acc v,
  0 <= acc <= 1 ->
  max_membership_loop out y acc s = Ok v -> acc <= v <= 1.
Proof.
  induction 1 as [|[strength [o l]] s Hs _ IH]; intros acc v Hacc.
  - intros [= <-]. lra.
  - cbn [max_membership_loop]. unfold mbind, result_bind.
    destruct (calculate_membership out l y) as [m|] eqn:Hm; [|discriminate].
    apply calculate_membership_range in Hm. cbn [fst] in Hs. intros H.
    pose proof (Q.le_min_l strength m) as Hl.
    assert (Hg : 0 <= Qmin strength m) by (apply Q.min_glb; lra).
    pose proof (Q.le_max_l acc (Qmin strength m)) as Hmax.
    assert (Hlub : Qmax acc (Qmin strength m) <= 1)
      by (apply Q.max_lub; lra).
    apply IH in H; lra.
Qed.

(** X12.  Every firing strength that [evaluate] computes lies in
    [[0, 1]], and so does the aggregated membership at every point. *)
Theorem degrees_in_unit_interval isets inputs rs s out y v :
  rule_strengths isets inputs rs = Ok s ->
  Forall (fun sc : Q * consequent => 0 <= fst sc <= 1) s /\
  (max_membership_loop out y 0 s = Ok v -> 0 <= v <= 1).
Proof.
  intros Hs. pose proof (rule_strengths_unit _ _ _ _ Hs) as Hu.
  split; [exact Hu|]. intros H.
  eapply max_membership_loop_unit in H; [exact H | exact Hu | lra].
Qed.

Lemma degrees_in_unit_interval_witness :
  Forall (fun sc : Q * consequent => 0 <= fst sc <= 1)
         [(1, ("y", "medium")%string)].
Proof.
  destruct (degrees_in_unit_interval (input_sets example_engine)
              example_inputs (rules example_engine)
              [(1, ("y", "medium")%string)] example_output 0 0) as [H _];
    [reflexivity | exact H].
Defined.

Lemma universe_loop_hull out s (lo hi : Q) (points : list Q) :
  Forall (fun sc : Q * consequent => 0 <= fst sc <= 1) s ->
  Forall (fun y => lo <= y <= hi) points ->
  forall acc n d,
  universe_loop out s acc points = Ok (n, d) ->
  0 <= snd acc -> lo * snd acc <= fst acc <= hi * snd acc ->
  snd acc <= d /\ lo * d <= n <= hi * d.
Proof.
  intros Hs. induction 1 as [|y rest Hy _ IH]; intros [n0 d0] n d.
  - intros [= <- <-]. cbn [fst snd]. intros; lra.
  - cbn [universe_loop fst snd]. unfold mbind, result_bind.
    destruct (max_membership_loop out y 0 s) as [v|] eqn:Hv; [|discriminate].
    apply (max_membership_loop_unit out y s Hs 0 v) in Hv; [|lra].
    intros H Hd0 Hn0. apply IH in H; cbn [fst snd] in *; [lra | lra | nra].
Qed.

Lemma evaluate_hull self inputs out (lo hi r : Q) :
  first_value (output_sets self) = Ok out ->
  within lo hi (universe out) = true ->
  evaluate self inputs = Ok r ->
  r = 0 \/ lo <= r <= hi.
Proof.
  intros Ho Hw H. unfold evaluate in H.
  destruct (rule_strengths (input_sets self) inputs (rules self))
    as [s|] eqn:Hs; [|discriminate].
  unfold mbind at 1, result_bind at 1 in H.
  destruct s as [|sc s]; [injection H as <-; now left|].
  rewrite Ho in H. unfold mbind, result_bind in H.
  destruct (universe_loop out (sc :: s) (0, 0) (universe out))
    as [[n d]|] eqn:Hu; [|discriminate].
  destruct (Qeq_bool_reflect d 0) as [Hz|Hnz]; cbn [negb] in H;
    injection H as <-; [now left|].
  right.
  assert (Hp : Forall (fun y => lo <= y <= hi) (universe out)).
  { apply List.Forall_forall. intros y Hy. unfold within in Hw.
    rewrite forallb_forall in Hw. specialize (Hw y Hy).
    apply andb_prop in Hw as [H1 H2].
    apply Qle_bool_iff in H1. apply Qle_bool_iff in H2. lra. }
  destruct (universe_loop_hull out (sc :: s) lo hi (universe out)
              (rule_strengths_unit _ _ _ _ Hs) Hp (0, 0) n d Hu)
    as [Hd Hn]; cbn [fst snd]; try lra.
  cbn [snd] in Hd. assert (0 < d) by lra. split.
  - apply Qle_shift_div_l; lra.
  - apply Qle_shift_div_r; lra.
Qed.

Lemma universe_loop_nonneg out s (points : list Q) :
  Forall (fun sc : Q * consequent => 0 <= fst sc <= 1) s ->
  Forall (fun y => 0 <= y) points ->
  forall acc n d,
  universe_loop out s acc points = Ok (n, d) ->
  0 <= fst acc -> 0 <= snd acc ->
  0 <= n /\ snd acc <= d.
Proof.
  intros Hs. induction 1 as [|y rest Hy _ IH]; intros [n0 d0] n d.
  - intros [= <- <-]. cbn [fst snd]. intros; lra.
  - cbn [universe_loop fst snd]. unfold mbind, result_bind.
    destruct (max_membership_loop out y 0 s) as [v|] eqn:Hv; [|discriminate].
    apply (max_membership_loop_unit out y s Hs 0 v) in Hv; [|lra].
    intros H Hn0 Hd0. apply IH in H; cbn [fst snd] in *; [lra | nra | lra].
Qed.

(** X13.  When no point of the first output variable's universe is
    negative, [evaluate] never returns a negative number. *)
Theorem evaluate_nonnegative self inputs out (r : Q) :
  first_value (output_sets self) = Ok out ->
  Forall (fun y => 0 <= y) (universe out) ->
  evaluate self inputs = Ok r ->
  0 <= r.
Proof.
  intros Ho Hp H. unfold evaluate in H.
  destruct (rule_strengths (input_sets self) inputs (rules self))
    as [s|] eqn:Hs; [|discriminate].
  unfold mbind at 1, result_bind at 1 in H.
  destruct s as [|sc s]; [injection H as <-; lra|].
  rewrite Ho in H. unfold mbind, result_bind in H.
  destruct (universe_loop out (sc :: s) (0, 0) (universe out))
    as [[n d]|] eqn:Hu; [|discriminate].
  destruct (Qeq_bool_reflect d 0) as [Hz|Hnz]; cbn [negb] in H;
    injection H as <-; [lra|].
  destruct (universe_loop_nonneg out (sc :: s) (universe out)
              (rule_strengths_unit _ _ _ _ Hs) Hp (0, 0) n d Hu)
    as [Hn Hd]; cbn [fst snd]; try lra.
  cbn [snd] in Hd. apply Qle_shift_div_l; lra.
Qed.

Lemma evaluate_nonnegative_witness :
  0 <= membership_or_zero (evaluate example_engine example_inputs).
Proof.
  apply (evaluate_nonnegative example_engine example_inputs example_output).
  - reflexivity.
  - vm_compute. repeat (constructor; [discriminate|]). constructor.
  - vm_compute. reflexivity.
Defined.

(** ** What [evaluate] depends on *)

Lemma antecedents_loop_frame isets inputs inputs' antecedents :
  (forall a, In a antecedents -> inputs !! fst a = inputs' !! fst a) ->
  forall strength,
  antecedents_loop isets inputs strength antecedents =
  antecedents_loop isets inputs' strength antecedents.
Proof.
  induction antecedents as [|[var_name mf_name] rest IH]; intros H strength;
    [reflexivity|].
  cbn [antecedents_loop].
  assert (E : getitem inputs var_name = getitem inputs' var_name).
  { pose proof (H (var_name, mf_name) (or_introl eq_refl)) as E0.
    cbn [fst] in E0. unfold getitem. now rewrite E0. }
  rewrite E. unfold mbind, result_bind.
  destruct (getitem inputs' var_name) as [x|]; [|reflexivity].
  destruct (getitem isets var_name) as [fs|]; [|reflexivity].
  destruct (calculate_membership fs mf_name x) as [m|]; [|reflexivity].
  apply IH. intros a Ha. apply H. now right.
Qed.

Lemma rule_strengths_frame isets inputs inputs' rs :
  (forall r a, In r rs -> In a (fst r) -> inputs !! fst a = inputs' !! fst a) ->
  rule_strengths isets inputs rs = rule_strengths isets inputs' rs.
Proof.
  induction rs as [|[antecedents c] rest IH]; intros H; [reflexivity|].
  cbn [rule_strengths].
  rewrite (antecedents_loop_frame isets inputs inputs' antecedents)
    by (intros a Ha; apply (H (antecedents, c)); [now left | exact Ha]).
  rewrite IH by (intros r a Hr; apply H; now right). reflexivity.
Qed.

(** X14.  [evaluate] reads the input mapping only at the variables that
    the antecedents of the rules name: two mappings that agree there give
    the same outcome, so further entries are ignored. *)
Theorem evaluate_inputs_frame self inputs inputs' :
  (forall r a, In r (rules self) -> In a (fst r) ->
               inputs !! fst a = inputs' !! fst a) ->
  evaluate self inputs = evaluate self inputs'.
Proof.
  intros H. unfold evaluate.
  now rewrite (rule_strengths_frame _ inputs inputs' _ H).
Qed.

Lemma evaluate_inputs_frame_witness :
  evaluate example_engine (<["unused" := 3]> example_inputs) =
  evaluate example_engine example_inputs.
Proof.
  apply evaluate_inputs_frame. intros r a [<-|[]] [<-|[]]. reflexivity.
Defined.

Lemma antecedents_loop_forget isets inputs antecedents :
  forall strength,
  antecedents_loop (forget_universe <$> isets) inputs strength antecedents =
  antecedents_loop isets inputs strength antecedents.
Proof.
  induction antecedents as [|[var_name mf_name] rest IH]; intros strength;
    [reflexivity|].
  cbn [antecedents_loop]. unfold mbind, result_bind.
  destruct (getitem inputs var_name) as [x|]; [|reflexivity].
  unfold getitem. rewrite lookup_fmap.
  destruct (isets !! var_name) as [fs|]; [|reflexivity].
  cbn [fmap option_fmap option_map].
  change (calculate_membership (forget_universe fs) mf_name x)
    with (calculate_membership fs mf_name x).
  destruct (calculate_membership fs mf_name x); [apply IH | reflexivity].
Qed.

(** X15.  [evaluate] never reads the universe or the name of an input
    variable: with these erased from every input variable the outcome is
    the same, so an input outside its variable's universe is no error. *)
Theorem evaluate_ignores_input_universes isets outs rs inputs :
  evaluate (mkFIS (forget_universe <$> isets) outs rs) inputs =
  evaluate (mkFIS isets outs rs) inputs.
Proof.
  unfold evaluate. cbn [input_sets output_sets rules].
  assert (H : rule_strengths (forget_universe <$> isets) inputs rs =
              rule_strengths isets inputs rs).
  { induction rs as [|[antecedents c] rest IH]; [reflexivity|].
    cbn [rule_strengths]. now rewrite antecedents_loop_forget, IH. }
  now rewrite H.
Qed.

(** ** A rule that does not fire *)

Lemma Qmax_keep (v s0 m : Q) :
  0 <= v -> s0 == 0 -> 0 <= m -> Qmax v (Qmin s0 m) = v.
Proof.
  intros Hv Hs Hm.
  assert (E : Qmin s0 m = s0).
  { unfold Qmin, GenericMinMax.gmin. destruct (s0 ?= m) eqn:E1; try reflexivity.
    apply Qgt_alt in E1. lra. }
  rewrite E. unfold Qmax, GenericMinMax.gmax.
  destruct (v ?= s0) eqn:E2; try reflexivity.
  apply Qlt_alt in E2. lra.
Qed.

Lemma rule_strengths_app isets inputs rs antecedents c :
  rule_strengths isets inputs (rs ++ [(antecedents, c)]) =
  (s ← rule_strengths isets inputs rs;
   v ← antecedents_loop isets inputs 1 antecedents;
   Ok (s ++ [(v, c)])).
Proof.
  induction rs as [|[ants0 c0] rest IH].
  - cbn [app rule_strengths]. unfold mbind, result_bind.
    destruct (antecedents_loop isets inputs 1 antecedents); reflexivity.
  - cbn [app rule_strengths]. rewrite IH. unfold mbind, result_bind.
    destruct (antecedents_loop isets inputs 1 ants0); [|reflexivity].
    destruct (rule_strengths isets inputs rest); [|reflexivity].
    destruct (antecedents_loop isets inputs 1 antecedents); reflexivity.
Qed.

Lemma max_membership_loop_app out y s s0 (c : consequent) :
  forall acc,
  max_membership_loop out y acc (s ++ [(s0, c)]) =
  (v ← max_membership_loop out y acc s;
   m ← calculate_membership out (snd c) y;
   Ok (Qmax v (Qmin s0 m))).
Proof.
  destruct c as [o l]. cbn [snd].
  induction s as [|[strength [o' l']] s IH]; intros acc.
  - cbn [app max_membership_loop]. unfold mbind, result_bind.
    destruct (calculate_membership out l y); reflexivity.
  - cbn [app max_membership_loop]. unfold mbind at 1 3, result_bind at 1 3.
    destruct (calculate_membership out l' y); [apply IH | reflexivity].
Qed.

Lemma max_membership_loop_idle out y s s0 (c : consequent) m :
  Forall (fun sc : Q * consequent => 0 <= fst sc <= 1) s ->
  s0 == 0 -> calculate_membership out (snd c) y = Ok m ->
  max_membership_loop out y 0 (s ++ [(s0, c)]) =
  max_membership_loop out y 0 s.
Proof.
  intros Hs Hs0 Hm. rewrite max_membership_loop_app.
  unfold mbind, result_bind.
  destruct (max_membership_loop out y 0 s) as [v|] eqn:Hv; [|reflexivity].
  rewrite Hm. apply (max_membership_loop_unit out y s Hs 0 v) in Hv; [|lra].
  apply calculate_membership_range in Hm.
  f_equal. apply Qmax_keep; lra.
Qed.

Lemma universe_loop_idle out s s0 (c : consequent) (points : list Q) :
  Forall (fun sc : Q * consequent => 0 <= fst sc <= 1) s ->
  s0 == 0 ->
  Forall (fun y => exists m, calculate_membership out (snd c) y = Ok m)
         points ->
  forall acc,
  universe_loop out (s ++ [(s0, c)]) acc points =
  universe_loop out s acc points.
Proof.
  intros Hs Hs0. induction 1 as [|y rest (m & Hm) _ IH]; intros acc;
    [reflexivity|].
  cbn [universe_loop].
  rewrite (max_membership_loop_idle out y s s0 c m Hs Hs0 Hm).
  unfold mbind, result_bind.
  destruct (max_membership_loop out y 0 s); [apply IH | reflexivity].
Qed.

Lemma universe_loop_no_rules out (points : list Q) :
  forall acc, exists n d,
    universe_loop out [] acc points = Ok (n, d) /\ d == snd acc.
Proof.
  induction points as [|y rest IH]; intros [n0 d0].
  - exists n0, d0. split; reflexivity.
  - cbn [universe_loop max_membership_loop]. unfold mbind, result_bind.
    destruct (IH (fst (n0, d0) + y * 0, snd (n0, d0) + 0))
      as (n & d & -> & Hd).
    exists n, d. split; [reflexivity|]. cbn [snd] in *. lra.
Qed.

(** X16.  Adding a rule whose firing strength is zero, and whose
    consequent label the first output variable has, changes nothing:
    [evaluate] gives the same outcome with and without it. *)
Theorem add_rule_not_firing self inputs antecedents c s0 out :
  first_value (output_sets self) = Ok out ->
  antecedents_loop (input_sets self) inputs 1 antecedents = Ok s0 ->
  s0 == 0 ->
  Forall (fun y => exists m, calculate_membership out (snd c) y = Ok m)
         (universe out) ->
  evaluate (add_rule self antecedents c) inputs = evaluate self inputs.
Proof.
  intros Ho Hs0 Hz Hout.
  unfold evaluate, add_rule. cbn [input_sets output_sets rules].
  rewrite rule_strengths_app.
  destruct (rule_strengths (input_sets self) inputs (rules self))
    as [s|] eqn:Hs; [|reflexivity].
  pose proof (rule_strengths_unit _ _ _ _ Hs) as Hu.
  pose proof (universe_loop_idle out s s0 c (universe out) Hu Hz Hout (0, 0))
    as E.
  unfold mbind at 1 2 3 5, result_bind at 1 2 3 5. rewrite Hs0.
  rewrite Ho. unfold mbind at 1 3, result_bind at 1 3.
  destruct s as [|sc s]; cbn [app] in *; rewrite E; [|reflexivity].
  destruct (universe_loop_no_rules out (universe out) (0, 0))
    as (n & d & -> & Hd).
  unfold mbind, result_bind. cbn [snd] in Hd.
  destruct (Qeq_bool_reflect d 0); [reflexivity | contradiction].
Qed.

Lemma add_rule_not_firing_witness :
  evaluate (add_rule example_engine [("x", "mid")] ("y", "medium"))
           example_inputs_off =
  evaluate example_engine example_inputs_off.
Proof.
  apply (add_rule_not_firing example_engine example_inputs_off
           [("x", "mid")] ("y", "medium") 0 example_output);
    try reflexivity.
  vm_compute. repeat constructor; eexists; reflexivity.
Defined.

(** ** The order of the rules *)

Lemma maximum_upper (v : Q) (vs : list Q) :
  Forall (fun x => x <= maximum v vs) (v :: vs).
Proof.
  revert v. induction vs as [|w vs IH]; intros v.
  - repeat constructor. cbn. lra.
  - cbn [maximum]. constructor; [apply Q.le_max_l|].
    eapply Forall_impl; [apply IH|]. cbn beta. intros x Hx.
    pose proof (Q.le_max_r v (maximum w vs)). lra.
Qed.

Lemma maximum_attained (v : Q) (vs : list Q) :
  Exists (fun x => x == maximum v vs) (v :: vs).
Proof.
  revert v. induction vs as [|w vs IH]; intros v.
  - left. reflexivity.
  - cbn [maximum].
    destruct (Q.max_spec v (maximum w vs)) as [[_ E]|[_ E]].
    + right. eapply List.Exists_impl; [|apply IH].
      cbn beta. intros x Hx. now rewrite E.
    + left. now rewrite E.
Qed.

Lemma greatest_le_of_perm (l l' : list Q) :
  l ≡ₚ l' -> greatest l <= greatest l'.
Proof.
  intros Hp. destruct l as [|v vs].
  - apply Permutation_nil in Hp. subst. cbn. lra.
  - destruct l' as [|v' vs'].
    + apply Permutation_sym, Permutation_nil in Hp. discriminate.
    + cbn [greatest].
      pose proof (maximum_attained v vs) as Ha.
      pose proof (maximum_upper v' vs') as Hu.
      pose proof (Permutation_Exists Hp Ha) as Ha'.
      apply List.Exists_exists in Ha' as (x & Hx & Ex).
      rewrite List.Forall_forall in Hu. specialize (Hu x Hx). lra.
Qed.

Lemma spec_aggregated_perm mu_in mu_out (rs rs' : list rule) (y : Q) :
  rs ≡ₚ rs' ->
  spec_aggregated mu_in mu_out rs y == spec_aggregated mu_in mu_out rs' y.
Proof.
  intros Hp.
  change (greatest (map (spec_clipped mu_in mu_out y) rs) ==
          greatest (map (spec_clipped mu_in mu_out y) rs')).
  pose proof (Permutation_map (spec_clipped mu_in mu_out y) Hp) as Hm.
  pose proof (greatest_le_of_perm _ _ Hm).
  pose proof (greatest_le_of_perm _ _ (Permutation_sym Hm)).
  lra.
Qed.

Lemma Qsum_map_compat (f g : Q -> Q) (points : list Q) :
  (forall y, f y == g y) -> Qsum (map f points) == Qsum (map g points).
Proof.
  intros H. induction points as [|y rest IH]; [reflexivity|].
  cbn [map]. rewrite !Qsum_cons, IH, (H y). reflexivity.
Qed.

Lemma resolves_perm isets outs rs rs' inputs out mu_in mu_out :
  rs ≡ₚ rs' ->
  resolves (mkFIS isets outs rs) inputs out mu_in mu_out ->
  resolves (mkFIS isets outs rs') inputs out mu_in mu_out.
Proof.
  intros Hp [Hin Hout]. cbn [input_sets rules] in *. split.
  - cbn [input_sets rules]. exact (Permutation_Forall Hp Hin).
  - cbn [rules]. eapply Forall_impl; [exact Hout|]. cbn beta.
    intros y Hy. exact (Permutation_Forall Hp Hy).
Qed.

(** X17.  The order of the rules does not matter for the result: if
    [evaluate] returns [r], it returns an equal number for the same rules
    in any other order. *)
Theorem evaluate_rule_order isets outs rs rs' inputs r :
  rs ≡ₚ rs' ->
  evaluate (mkFIS isets outs rs) inputs = Ok r ->
  exists r', evaluate (mkFIS isets outs rs') inputs = Ok r' /\ r' == r.
Proof.
  intros Hp H. destruct rs as [|r0 rs0].
  - apply Permutation_nil in Hp. subst rs'. exists r. split; [exact H|].
    reflexivity.
  - remember (r0 :: rs0) as rs eqn:Ers.
    assert (Hne : rs <> []) by (rewrite Ers; discriminate).
    clear Ers.
    assert (Hne' : rs' <> []).
    { intros ->. apply Permutation_sym, Permutation_nil in Hp. congruence. }
    destruct (evaluate_ok_resolves (mkFIS isets outs rs) inputs r Hne H)
      as (out & Ho & Hres).
    pose proof (resolves_perm _ _ _ _ _ _ _ _ Hp Hres) as Hres'.
    destruct (evaluate_resolved (mkFIS isets outs rs) inputs out _ _
                Hne Ho Hres) as (s1 & r1 & _ & _ & _ & E1 & Hnz1 & Hz1).
    destruct (evaluate_resolved (mkFIS isets outs rs') inputs out _ _
                Hne' Ho Hres') as (s2 & r2 & _ & _ & _ & E2 & Hnz2 & Hz2).
    rewrite H in E1. injection E1 as <-. cbn [rules] in *.
    exists r2. split; [exact E2|].
    set (mi := run_mu_in (mkFIS isets outs rs) inputs) in *.
    set (mo := run_mu_out out) in *.
    assert (Ed : spec_denominator mi mo rs' (universe out) ==
                 spec_denominator mi mo rs (universe out)).
    { apply Qsum_map_compat. intros y. apply spec_aggregated_perm.
      now apply Permutation_sym. }
    assert (En : spec_numerator mi mo rs' (universe out) ==
                 spec_numerator mi mo rs (universe out)).
    { apply Qsum_map_compat. intros y.
      rewrite (spec_aggregated_perm mi mo rs' rs y (Permutation_sym Hp)).
      reflexivity. }
    destruct (Qeq_dec (spec_denominator mi mo rs (universe out)) 0)
      as [Hz|Hnz].
    + rewrite (Hz1 Hz). apply Hz2. now rewrite Ed.
    + rewrite (Hnz1 Hnz), Hnz2 by now rewrite Ed. now rewrite En, Ed.
Qed.

Lemma evaluate_rule_order_witness :
  exists r',
    evaluate (mkFIS (input_sets example_engine) (output_sets example_engine)
                [([], ("y", "medium")); ([("x", "mid")], ("y", "medium"))])
             example_inputs_off = Ok r' /\ r' == 5.
Proof.
  destruct (evaluate_rule_order (input_sets example_engine)
              (output_sets example_engine)
              [([("x", "mid")], ("y", "medium")); ([], ("y", "medium"))]
              [([], ("y", "medium")); ([("x", "mid")], ("y", "medium"))]
              example_inputs_off
              (membership_or_zero
                 (evaluate
                    (mkFIS (input_sets example_engine)
                       (output_sets example_engine)
                       [([("x", "mid")], ("y", "medium"));
                        ([], ("y", "medium"))])
                    example_inputs_off)))
    as (r' & H & E).
  - apply perm_swap.
  - vm_compute. reflexivity.
  - exists r'. split; [exact H|]. rewrite E. vm_compute. reflexivity.
Defined.

(** ** The three models and the pipeline *)

Lemma create_house_fis_ok : create_house_fis = Ok house_engine.
Proof. vm_compute. reflexivity. Qed.

Lemma create_application_fis_ok :
  create_application_fis = Ok application_engine.
Proof. vm_compute. reflexivity. Qed.

Lemma create_loan_fis_ok : create_loan_fis = Ok loan_engine.
Proof. vm_compute. reflexivity. Qed.

Lemma house_engine_validated : validated house_engine = true.
Proof. vm_compute. reflexivity. Qed.

Lemma application_engine_validated : validated application_engine = true.
Proof. vm_compute. reflexivity. Qed.

Lemma loan_engine_validated : validated loan_engine = true.
Proof. vm_compute. reflexivity. Qed.

(** X18.  The three builders return without raising, and the engines
    they build pass the static check: every rule names registered input
    variables and labels, every consequent label belongs to the single
    output variable, and every parameter list has the length of its
    type.  They hold 14, 12 and 15 rules. *)
Theorem shipped_models_validated :
  (exists fis, create_house_fis = Ok fis /\ validated fis = true /\
     keys (output_sets fis) = ["house_eval"%string] /\
     length (rules fis) = 14%nat) /\
  (exists fis, create_application_fis = Ok fis /\ validated fis = true /\
     keys (output_sets fis) = ["eval_app"%string] /\
     length (rules fis) = 12%nat) /\
  (exists fis, create_loan_fis = Ok fis /\ validated fis = true /\
     keys (output_sets fis) = ["loan"%string] /\
     length (rules fis) = 15%nat).
Proof.
  split; [|split].
  - exists house_engine. split; [apply create_house_fis_ok|].
    split; [apply house_engine_validated|]. split; reflexivity.
  - exists application_engine. split; [apply create_application_fis_ok|].
    split; [apply application_engine_validated|]. split; reflexivity.
  - exists loan_engine. split; [apply create_loan_fis_ok|].
    split; [apply loan_engine_validated|]. split; reflexivity.
Qed.

Lemma checked_run self inputs (lo hi : Q) :
  validated self = true -> covers inputs self = true ->
  (exists out, first_value (output_sets self) = Ok out /\
               within lo hi (universe out) = true) ->
  lo <= 0 -> 0 <= hi ->
  exists r, evaluate self inputs = Ok r /\ lo <= r <= hi.
Proof.
  intros Hv Hc (out & Ho & Hw) Hlo Hhi.
  destruct (evaluate_returns self inputs Hv Hc) as [r Hr].
  exists r. split; [exact Hr|].
  destruct (evaluate_hull self inputs out lo hi r Ho Hw Hr) as [->|]; lra.
Qed.

(** X19.  [evaluate_loan] returns for all five inputs that are real
    numbers: no lookup fails and nothing divides by zero.  The house and
    the application evaluation lie in [[0, 10]] and the loan amount in
    [[0, 500000]]. *)
Theorem evaluate_loan_total (market_value location_value assets_value
    salary_value interest_value : Q) :
  exists report,
    evaluate_loan market_value location_value assets_value salary_value
      interest_value = Ok report /\
    0 <= house_evaluation report <= 10 /\
    0 <= application_evaluation report <= 10 /\
    0 <= loan_amount report <= 500000.
Proof.
  unfold evaluate_loan.
  rewrite create_house_fis_ok, create_application_fis_ok, create_loan_fis_ok.
  destruct (checked_run house_engine
              {[ "market_value" := market_value;
                 "location" := location_value ]} 0 10)
    as (h & Hh & Rh);
    [apply house_engine_validated | vm_compute; reflexivity
    | eexists; split; [reflexivity | vm_compute; reflexivity]
    | lra | lra |].
  destruct (checked_run application_engine
              {[ "assets" := assets_value; "salary" := salary_value ]} 0 10)
    as (a & Ha & Ra);
    [apply application_engine_validated | vm_compute; reflexivity
    | eexists; split; [reflexivity | vm_compute; reflexivity]
    | lra | lra |].
  destruct (checked_run loan_engine
              {[ "house_eval" := h; "eval_app" := a;
                 "interest" := interest_value; "salary" := salary_value ]}
              0 500000)
    as (l & Hl & Rl);
    [apply loan_engine_validated | vm_compute; reflexivity
    | eexists; split; [reflexivity | vm_compute; reflexivity]
    | lra | lra |].
  exists (mkLoanReport h a l).
  unfold mbind, result_bind. rewrite Hh, Ha, Hl.
  cbn [house_evaluation application_evaluation loan_amount].
  repeat split; lra.
Qed.

(** ** Registering input variables *)

(** X20.  When [add_input] returns, the name maps to a fresh variable
    on the generated universe without membership functions (also when
    the name was registered before, whose labels are then gone: asking
    for one raises [KeyError]), and every other input variable, the
    output variables and the rules are as before. *)
Theorem add_input_fresh self nm (start stop step : Q) self' :
  add_input self nm (start, stop, step) = Ok self' ->
  (exists u, arange start stop step = Ok u /\
             input_sets self' !! nm = Some (mkFuzzySet nm u ∅)) /\
  (forall k, k <> nm -> input_sets self' !! k = input_sets self !! k) /\
  output_sets self' = output_sets self /\ rules self' = rules self /\
  (forall inputs l x,
     inputs !! nm = Some x ->
     fuzzify (input_sets self') inputs (nm, l) = Raise KeyError).
Proof.
  unfold add_input, FuzzySet_init, mbind, result_bind. cbv beta iota zeta.
  intros H. destruct (arange start stop step) as [u|]; [|discriminate].
  injection H as <-. cbn [input_sets output_sets rules].
  split; [exists u; split; [reflexivity | apply lookup_insert_eq]|].
  split; [intros k Hk; now apply lookup_insert_ne|].
  split; [reflexivity|]. split; [reflexivity|].
  intros inputs l x Hx. unfold fuzzify, getitem, mbind, result_bind.
  cbn [fst snd]. rewrite Hx, lookup_insert_eq.
  unfold calculate_membership, getitem. cbn [membership_functions].
  now rewrite lookup_empty.
Qed.

Lemma add_input_fresh_witness :
  fuzzify (input_sets (built (add_input example_engine "x" (0, 3, 1))))
          example_inputs ("x", "mid") = Raise KeyError.
Proof.
  destruct (add_input_fresh example_engine "x" 0 3 1
              (built (add_input example_engine "x" (0, 3, 1))))
    as (_ & _ & _ & _ & H); [reflexivity|].
  apply (H example_inputs "mid" 5). reflexivity.
Defined.

(** ** More rules, empty universes *)

(** X21.  Aggregation is by maximum: at every point, a further rule can
    only raise the aggregated membership, never lower it. *)
Theorem aggregation_monotone out y s s0 (c : consequent) v v' :
  max_membership_loop out y 0 s = Ok v ->
  max_membership_loop out y 0 (s ++ [(s0, c)]) = Ok v' ->
  v <= v'.
Proof.
  intros Hv Hv'. rewrite max_membership_loop_app, Hv in Hv'.
  unfold mbind, result_bind in Hv'.
  destruct (calculate_membership out (snd c) y) as [m|]; [|discriminate].
  injection Hv' as <-. apply Q.le_max_l.
Qed.

Lemma aggregation_monotone_witness : 1 # 3 <= 1 # 3.
Proof.
  apply (aggregation_monotone example_output 3
           [(1, ("y", "medium")%string)] (1 # 2) ("y", "medium")%string);
    reflexivity.
Defined.

Lemma arange_empty (start stop step : Q) :
  0 < step -> stop <= start -> arange start stop step = Ok [].
Proof.
  intros Hs Hle. rewrite arange_positive_step by exact Hs.
  assert (E : Z.to_nat (Qceiling ((stop - start) / step)) = 0%nat).
  { assert (H : (stop - start) / step <= 0).
    { apply Qle_shift_div_r; lra. }
    apply Qceiling_resp_le in H. change (Qceiling 0) with 0%Z in H. lia. }
  now rewrite E.
Qed.

(** X22.  A range with [step > 0] and [stop <= start] gives an empty
    universe, and with an empty universe on the first output variable
    [evaluate] returns [0] as soon as the rule strengths are computed,
    without looking up any consequent label. *)
Theorem evaluate_empty_universe self inputs s out (start stop step : Q) :
  (0 < step -> stop <= start -> arange start stop step = Ok []) /\
  (rule_strengths (input_sets self) inputs (rules self) = Ok s ->
   first_value (output_sets self) = Ok out ->
   universe out = [] ->
   evaluate self inputs = Ok 0 /\
   forall log r, evaluate_log self inputs = (log, r) ->
                 forall l, ~ In (ReadOutputSet l) log).
Proof.
  split; [apply arange_empty|].
  intros Hs Ho Hu. split.
  - unfold evaluate. rewrite Hs. unfold mbind at 1, result_bind at 1.
    destruct s as [|sc s]; [reflexivity|].
    rewrite Ho. unfold mbind, result_bind. rewrite Hu. reflexivity.
  - intros log r H l Hin.
    unfold evaluate_log in H. unfold mbind at 1, logged_bind at 1 in H.
    pose proof (rule_strengths_log_erase (input_sets self) inputs (rules self))
      as He. rewrite Hs in He.
    assert (Hlog : forall l',
               ~ In (ReadOutputSet l')
                    (fst (rule_strengths_log (input_sets self) inputs
                            (rules self)))).
    { clear. intros l'.
      assert (Ha : forall ants st,
                 ~ In (ReadOutputSet l')
                      (fst (antecedents_loop_log (input_sets self) inputs st
                              ants))).
      { induction ants as [|[vn mn] rest IH]; intros st; [intros []|].
        cbn [antecedents_loop_log]. unfold mbind, logged_bind, reading.
        cbn [fst snd].
        destruct (getitem inputs vn) as [x|]; cbn [fst snd];
          [|intros [?|[]]; discriminate].
        destruct (getitem (input_sets self) vn) as [fs|]; cbn [fst snd];
          [|intros [?|[?|[]]]; discriminate].
        destruct (calculate_membership fs mn x) as [m|]; cbn [fst snd];
          [|intros [?|[?|[]]]; discriminate].
        intros [?|[?|H]]; try discriminate. now apply IH in H. }
      induction (rules self) as [|[ants c] rest IH]; [intros []|].
      cbn [rule_strengths_log]. unfold mbind, logged_bind.
      destruct (snd (antecedents_loop_log (input_sets self) inputs 1 ants))
        as [v|]; [|apply Ha].
      cbn [fst snd].
      destruct (snd (rule_strengths_log (input_sets self) inputs rest))
        as [tl|]; cbn [fst snd].
      - intros H. apply in_app_or in H as [H|H]; [now apply Ha in H|].
        apply in_app_or in H as [H|[]]. now apply IH in H.
      - intros H. apply in_app_or in H as [H|H]; [now apply Ha in H|].
        now apply IH in H. }
    destruct (rule_strengths_log (input_sets self) inputs (rules self))
      as [l0 rs0]. cbn [fst snd] in *. subst rs0.
    destruct s as [|sc s].
    + cbn in H. injection H as <- _. rewrite app_nil_r in Hin.
      now apply Hlog in Hin.
    + rewrite Ho in H. unfold mbind, logged_bind, reading in H.
      cbn [fst snd] in H. rewrite Hu in H. cbn in H.
      injection H as <- _.
      apply in_app_or in Hin as [Hin|[Hin|[]]];
        [now apply Hlog in Hin | discriminate].
Qed.

Lemma evaluate_empty_universe_witness :
  arange 5 5 1 = Ok [] /\
  evaluate (mkFIS ∅ [("y", mkFuzzySet "y" [] ∅)] [([], ("y", "none"))]) ∅ =
  Ok 0.
Proof.
  destruct (evaluate_empty_universe
              (mkFIS ∅ [("y", mkFuzzySet "y" [] ∅)] [([], ("y", "none"))]) ∅
              [(1, ("y", "none")%string)] (mkFuzzySet "y" [] ∅) 5 5 1)
    as [Ha He].
  split.
  - apply Ha; [reflexivity | discriminate].
  - apply He; reflexivity.
Defined.
